(** * f5-telemetry-streaming: normalization, poller reconciliation, event listener

    A shallow embedding of [src/nodejs/normalize.js], of the system poller
    (its configuration-change handler, one collection cycle and the REST
    request for a poller) and of the event listener ([start] and its
    configuration-change handler), with the properties the specification
    states about them and further properties the code shows.

    JavaScript data is modelled as JSON values.  An object is an association
    list with distinct keys, kept in insertion order; [obj_set] is the
    assignment [o[k] = v].  Two things JavaScript does with property names
    are outside the model: integer-like keys are enumerated before the other
    keys, and names found on the prototype chain (["__proto__"],
    ["constructor"], ...) are treated like any other absent own property.
    Numbers are integers; the code never computes with them.

    Exceptions are explicit: a function that can throw returns a [result].
    [reduceData] calls itself on objects it has just built, so its model
    takes fuel; [OutOfFuel] says that the fuel did not cover the depth of
    the calls, and more fuel never changes another result. *)

From stdpp Require Import base option list strings gmap.
From Stdlib Require Import Ascii String DecimalString.

Set Warnings "-register-all".

Open Scope string_scope.
Open Scope list_scope.

(** ** Exceptions and results *)

Inductive exn : Type :=
| TypeError (msg : string)
| Error (msg : string).

Inductive result (A : Type) : Type :=
| Ret (a : A)
| Throw (e : exn)
| OutOfFuel.

Arguments Ret {A} a.
Arguments Throw {A} e.
Arguments OutOfFuel {A}.

Definition bind {A B} (m : result A) (k : A -> result B) : result B :=
  match m with
  | Ret a => k a
  | Throw e => Throw e
  | OutOfFuel => OutOfFuel
  end.

Notation "'let*' x ':=' m 'in' k" := (bind m (fun x => k))
  (at level 10, x name, m at level 100, k at level 200).

Definition exn_message (e : exn) : string :=
  match e with
  | TypeError m => "TypeError: " +:+ m
  | Error m => "Error: " +:+ m
  end.

(** ** JSON values *)

Inductive value : Type :=
| JNull
| JBool (b : bool)
| JNum (n : Z)
| JStr (s : string)
| JArr (l : list value)
| JObj (kvs : list (string * value)).

(** [o[k]] on the own properties of an object; [None] is [undefined]. *)
Fixpoint obj_get {A} (o : list (string * A)) (k : string) : option A :=
  match o with
  | [] => None
  | (k', v) :: o' => if String.eqb k' k then Some v else obj_get o' k
  end.

(** [o[k] = v]: overwrite in place, or append a new property. *)
Fixpoint obj_set {A} (o : list (string * A)) (k : string) (v : A)
  : list (string * A) :=
  match o with
  | [] => [(k, v)]
  | (k', v') :: o' =>
      if String.eqb k' k then (k', v) :: o' else (k', v') :: obj_set o' k v
  end.

(** ** Strings, as [String.prototype] has them *)

Fixpoint is_prefix (p s : string) : bool :=
  match p, s with
  | EmptyString, _ => true
  | String a p', String b s' => if Ascii.eqb a b then is_prefix p' s' else false
  | String _ _, EmptyString => false
  end.

(** [s.includes(p)] *)
Fixpoint includes (s p : string) : bool :=
  if is_prefix p s then true
  else match s with
       | EmptyString => false
       | String _ s' => includes s' p
       end.

Fixpoint drop_chars (n : nat) (s : string) : string :=
  match n, s with
  | O, _ => s
  | S n', String _ s' => drop_chars n' s'
  | S _, EmptyString => EmptyString
  end.

(** [s.replace(p, '')] with a string pattern: the first occurrence goes. *)
Fixpoint remove_first (p s : string) : string :=
  if is_prefix p s then drop_chars (String.length p) s
  else match s with
       | EmptyString => EmptyString
       | String c s' => String c (remove_first p s')
       end.

(** [s.replace(/c/g, '')] for a one-character pattern. *)
Fixpoint remove_all (c : ascii) (s : string) : string :=
  match s with
  | EmptyString => EmptyString
  | String a s' =>
      if Ascii.eqb a c then remove_all c s' else String a (remove_all c s')
  end.

(** [s.split(sep)] for a non-empty separator.  [skip] counts the characters
    of a separator occurrence that are still to be passed over. *)
Fixpoint split_go (sep : string) (skip : nat) (s : string) : list string :=
  match s with
  | EmptyString => [EmptyString]
  | String c s' =>
      match skip with
      | S k => split_go sep k s'
      | O =>
          if is_prefix sep s
          then EmptyString :: split_go sep (String.length sep - 1) s'
          else match split_go sep 0 s' with
               | piece :: rest => String c piece :: rest
               | [] => [String c EmptyString]
               end
      end
  end.

Definition js_split (s sep : string) : list string := split_go sep 0 s.

Definition LF : ascii := Ascii.ascii_of_nat 10.
Definition DQUOTE : ascii := Ascii.ascii_of_nat 34.

(** The decimal numeral of an array index, as a property name. *)
Definition index_name (i : nat) : string :=
  NilEmpty.string_of_uint (Nat.to_uint i).

(** Whether a string is a numeral: the property names of array elements
    are. *)
Fixpoint all_digits (s : string) : bool :=
  match s with
  | EmptyString => true
  | String c s' =>
      (Nat.leb 48 (nat_of_ascii c) && Nat.leb (nat_of_ascii c) 57) && all_digits s'
  end.

(** ** Generic loops with exceptions *)

Section Loops.

Context {A B S : Type}.

(** [l.forEach] updating an accumulator; the first exception ends the
    loop. *)
Fixpoint foldM (f : S -> A -> result S) (l : list A) (s : S) {struct l}
  : result S :=
  match l with
  | [] => Ret s
  | a :: l' => let* s' := f s a in foldM f l' s'
  end.

(** [l.forEach(i => ret.push(f(i)))] *)
Fixpoint mapM (f : A -> result B) (l : list A) {struct l} : result (list B) :=
  match l with
  | [] => Ret []
  | a :: l' => let* b := f a in let* bs := mapM f l' in Ret (b :: bs)
  end.

End Loops.

(** ** Property access on JSON values *)

Definition truthy (v : value) : bool :=
  match v with
  | JNull => false
  | JBool b => b
  | JNum n => negb (Z.eqb n 0)
  | JStr s => negb (String.eqb s EmptyString)
  | JArr _ | JObj _ => true
  end.

Definition isArray (v : value) : bool :=
  match v with JArr _ => true | _ => false end.

(** [typeof v === 'object'] *)
Definition typeof_object (v : value) : bool :=
  match v with JNull | JArr _ | JObj _ => true | _ => false end.

Fixpoint indexed_from {A} (i : nat) (l : list A) : list (string * A) :=
  match l with
  | [] => []
  | a :: l' => (index_name i, a) :: indexed_from (S i) l'
  end.

Fixpoint chars (s : string) : list value :=
  match s with
  | EmptyString => []
  | String c s' => JStr (String c EmptyString) :: chars s'
  end.

(** The own enumerable properties, in [Object.keys] order: the properties of
    an object, the elements of an array, the characters of a string, and
    nothing for a number or a boolean. *)
Definition own_props (v : value) : list (string * value) :=
  match v with
  | JObj kvs => kvs
  | JArr l => indexed_from 0 l
  | JStr s => indexed_from 0 (chars s)
  | _ => []
  end.

(** [data[k]] for an own property; reading any property of [null] throws. *)
Definition get_prop (data : value) (k : string) : result (option value) :=
  match data with
  | JNull => Throw (TypeError ("Cannot read property '" +:+ k +:+ "' of null"))
  | _ => Ret (obj_get (own_props data) k)
  end.

(** ** Event classifier: [formatAsJson] and [normalizeEvent] *)

Module Event.

(** What [logger.error] has received, oldest first. *)
Definition log := list string.

(** The body of [baseSplit.forEach]: one segment.  [keySplit[1]] is
    [undefined] when the segment has no ['='], and [undefined.replace]
    throws. *)
Definition each_segment (ret : list (string * string)) (i : string)
  : list (string * string) * option exn :=
  let keySplit := js_split i "=" in
  match nth_error keySplit 1 with
  | None => (ret, Some (TypeError "Cannot read property 'replace' of undefined"))
  | Some v =>
      let keyValue := remove_all DQUOTE v in
      (obj_set ret (nth 0 keySplit EmptyString) keyValue, None)
  end.

(** [forEach] stops at the first exception; [ret] keeps what was assigned
    before it. *)
Fixpoint forEach_segment (ret : list (string * string)) (segs : list string)
  : list (string * string) * option exn :=
  match segs with
  | [] => (ret, None)
  | i :: rest =>
      match each_segment ret i with
      | (ret', None) => forEach_segment ret' rest
      | (ret', Some e) => (ret', Some e)
      end
  end.

(** The [try] block of [formatAsJson]. *)
Definition try_block (data : string) : list (string * string) * option exn :=
  let dataToFormat := remove_all LF data in
  let baseSplit := js_split dataToFormat "," in
  forEach_segment [] baseSplit.

(** [formatAsJson]: the [catch] clause logs and falls through to
    [return ret]. *)
Definition formatAsJson (data : string) (lg : log)
  : result (list (string * string)) * log :=
  match try_block data with
  | (ret, None) => (Ret ret, lg)
  | (ret, Some e) => (Ret ret, lg ++ ["formatAsJson error: " +:+ exn_message e])
  end.

Definition normalizeEvent (data : string) (lg : log)
  : result (list (string * string)) * log :=
  formatAsJson data lg.

End Event.

(** ** Statistics normalizer: [normalize.js] *)

Module Normalize.

(** [options.convertArrayToMap] *)
Record catm_options : Type := {
  keyName : option string;
  keyNamePrefix : option string
}.

(** One value of the [renameKeysByPattern] table: a regular expression, or
    [{ pattern, group }]. *)
Inductive pattern_entry (regex : Type) : Type :=
| Plain (r : regex)
| WithGroup (r : regex) (group : option nat).

Arguments Plain {regex} r.
Arguments WithGroup {regex} r group.

(** [options.runCustomFunction] *)
Record custom_options : Type := {
  name : option string;
  args : option (list (string * value))
}.

Record options (regex : Type) : Type := {
  o_key : option string;
  o_filterByKeys : option (list string);
  o_renameKeysByPattern : option (list (string * pattern_entry regex));
  o_convertArrayToMap : option catm_options;
  o_runCustomFunction : option custom_options
}.

Arguments o_key {regex} o.
Arguments o_filterByKeys {regex} o.
Arguments o_renameKeysByPattern {regex} o.
Arguments o_convertArrayToMap {regex} o.
Arguments o_runCustomFunction {regex} o.

Definition keysToReduce : list string :=
  ["nestedStats"; "value"; "description"; "color"].

(** The [for] loop of [reduceData]: the first of [keys] that [data] holds
    while being its only key. *)
Fixpoint find_wrapped (keys : list string) (data : value)
  : result (option value) :=
  match keys with
  | [] => Ret None
  | w :: keys' =>
      let* item := get_prop data w in
      match item with
      | Some it =>
          if Nat.eqb (List.length (own_props data)) 1 then Ret (Some it)
          else find_wrapped keys' data
      | None => find_wrapped keys' data
      end
  end.

(** [data.entries && !Array.isArray(data)]: the value of [data.entries]
    when the test passes.  On an array [data.entries] is a method of the
    prototype, and the second conjunct rejects it. *)
Definition entries_of (data : value) : option value :=
  if isArray data then None
  else match obj_get (own_props data) "entries" with
       | Some e => if truthy e then Some e else None
       | None => None
       end.

(** The [forEach] over [Object.keys(data.entries)]. *)
Definition expand_entries (entries : value) : list (string * value) :=
  fold_left
    (fun ret '(k, v) =>
       let kM := remove_first "mgmt/tm/" (remove_first "https://localhost/" k) in
       obj_set ret kM v)
    (own_props entries) [].

(** [catm && catm.keyName]: the key name when the test passes. *)
Definition catm_keyName (catm : option catm_options) : option (string * option string) :=
  match catm with
  | Some c =>
      match keyName c with
      | Some k => if String.eqb k EmptyString then None else Some (k, keyNamePrefix c)
      | None => None
      end
  | None => None
  end.

Section WithCollaborators.

(** [util.js], [normalizeUtil.js] and [constants.js] are not part of the
    sources at hand, and neither is the regular-expression engine: what
    [normalize.js] uses of them is taken as a parameter. *)
Variable regex : Type.
(** [k.match(pattern)]: [null], or the array of the match (index 0) and
    of its capture groups, [None] for a group that took no part. *)
Variable js_match : string -> regex -> option (list (option string)).
(** [util.convertArrayToMap(data, key, { keyPrefix })] *)
Variable convertArrayToMap : list value -> string -> option string -> result value.
(** [util.filterDataByKeys(data, keys)] *)
Variable filterDataByKeys : value -> list string -> result value.
(** [normalizeUtil[name]], when there is such a function. *)
Variable normalizeUtil : string -> option (list (string * value) -> result value).
(** [constants.STATS_KEY_SEP] *)
Variable STATS_KEY_SEP : string.

(** [reduceData].  The recursion on the expanded [entries] object and on
    the converted array is not structural: [fuel] bounds the depth of
    the calls. *)
Fixpoint reduceData (fuel : nat) (data : value) (catm : option catm_options)
  : result value :=
  match fuel with
  | O => OutOfFuel
  | S n =>
      let* wrapped := find_wrapped keysToReduce data in
      match wrapped with
      | Some item => reduceData n item catm
      | None =>
          match entries_of data with
          | Some entries => reduceData n (JObj (expand_entries entries)) catm
          | None =>
              match data with
              | JArr l =>
                  match catm_keyName catm with
                  | Some (k, prefix) =>
                      let* ret := convertArrayToMap l k prefix in
                      reduceData n ret catm
                  | None =>
                      let* ret := mapM (fun i => reduceData n i catm) l in
                      Ret (JArr ret)
                  end
              | JObj kvs =>
                  let* ret :=
                    foldM (fun ret '(k, v) =>
                             let* r := reduceData n v catm in
                             Ret (obj_set ret k r)) kvs [] in
                  Ret (JObj ret)
              | _ => Ret data
              end
          end
      end
  end.

(** [patterns[pK].pattern ? patterns[pK].pattern : patterns[pK]] *)
Definition entry_pattern (e : pattern_entry regex) : regex :=
  match e with Plain r => r | WithGroup r _ => r end.

(** [patterns[pK].group ? patterns[pK].group : 0] *)
Definition entry_group (e : pattern_entry regex) : nat :=
  match e with WithGroup _ (Some g) => g | _ => 0 end.

(** The inner [forEach] of [renameKeysInData] over [Object.keys(patterns)]:
    the pair [(renameKey, renamedKey)] after the loop.  [renamedKey] is
    [None] when it is [undefined]. *)
Definition check_patterns (k : string) (patterns : list (string * pattern_entry regex))
  : bool * option string :=
  fold_left
    (fun '(renameKey, renamedKey) '(pK, e) =>
       if includes k pK then
         match js_match k (entry_pattern e) with
         | Some checkForMatch =>
             (true, mjoin (nth_error checkForMatch (entry_group e)))
         | None => (renameKey, renamedKey)
         end
       else (renameKey, renamedKey))
    patterns (false, None).

(** The property name under which a key is stored: an [undefined]
    [renamedKey] is the name ["undefined"]. *)
Definition new_key (k : string) (patterns : list (string * pattern_entry regex))
  : string :=
  match check_patterns k patterns with
  | (true, Some renamedKey) => renamedKey
  | (true, None) => "undefined"
  | (false, _) => k
  end.

(** [renameKeysInData]: [typeof null] is ['object'], and [Object.keys(null)]
    throws. *)
Fixpoint renameKeysInData (data : value) (patterns : list (string * pattern_entry regex))
  : result value :=
  match data with
  | JObj kvs =>
      let* ret :=
        foldM (fun ret '(k, v) =>
                 let* r := renameKeysInData v patterns in
                 Ret (obj_set ret (new_key k patterns) r)) kvs [] in
      Ret (JObj ret)
  | JNull => Throw (TypeError "Cannot convert undefined or null to object")
  | _ => Ret data
  end.

(** [getDataByKey]: one step of the [forEach] over the key path.
    ['length'] is an own property of an array; [i in null] throws. *)
Definition has_prop (ret : value) (i : string) : option value :=
  match ret with
  | JArr l =>
      if String.eqb i "length" then Some (JNum (Z.of_nat (List.length l)))
      else obj_get (own_props ret) i
  | _ => obj_get (own_props ret) i
  end.

Definition getDataByKey_step (ret : value) (i : string) : result value :=
  if typeof_object ret then
    match ret with
    | JNull =>
        Throw (TypeError ("Cannot use 'in' operator to search for '" +:+ i +:+ "' in null"))
    | _ =>
        match has_prop ret i with
        | Some v => Ret v
        | None => Ret (JStr "missing key")
        end
    end
  else Ret (JStr "missing key").

Definition getDataByKey (data : value) (key : string) : result value :=
  let keys := js_split key STATS_KEY_SEP in
  foldM getDataByKey_step keys data.

(** [runCustomFunction]: the reserved name is refused outside the [try];
    whatever the call throws is wrapped. *)
Definition runCustomFunction (data : value) (func : option string)
           (optionalArgs : option (list (string * value))) : result value :=
  let* args :=
    match optionalArgs with
    | Some oa =>
        foldM (fun args '(k, v) =>
                 if String.eqb k "data"
                 then Throw (Error "Named argument (data) is not allowed")
                 else Ret (obj_set args k v))
              oa [("data", data)]
    | None => Ret [("data", data)]
    end in
  match func ≫= normalizeUtil with
  | Some f =>
      match f args with
      | Ret v => Ret v
      | Throw e => Throw (Error ("runCustomFunction failed: " +:+ exn_message e))
      | OutOfFuel => OutOfFuel
      end
  | None =>
      Throw (Error "runCustomFunction failed: TypeError: normalizeUtil[options.func] is not a function")
  end.

(** [normalizeData] *)
Definition normalizeData (fuel : nat) (data : value) (o : options regex)
  : result value :=
  let reduceDataOptions := o_convertArrayToMap o in
  let* ret := reduceData fuel data reduceDataOptions in
  let* ret :=
    match o_key o with
    | Some key => if String.eqb key EmptyString then Ret ret else getDataByKey ret key
    | None => Ret ret
    end in
  let* ret :=
    match o_filterByKeys o with
    | Some keys => filterDataByKeys ret keys
    | None => Ret ret
    end in
  let* ret :=
    match o_renameKeysByPattern o with
    | Some patterns => renameKeysInData ret patterns
    | None => Ret ret
    end in
  match o_runCustomFunction o with
  | Some rcf => runCustomFunction ret (name rcf) (args rcf)
  | None => Ret ret
  end.

End WithCollaborators.

End Normalize.

(** ** System poller: the handler of the configuration-change event *)

Module Poller.

(** One entry of [config[CLASS_NAME]].  [enable] is [None] when the
    declaration leaves it out. *)
Record poller_config : Type := {
  interval : nat;
  enable : option bool
}.

(** [pollerIDs], the module's registry of interval handles by poller name,
    and the interval timers of the runtime that are still armed. *)
Record state : Type := {
  pollerIDs : gmap string nat;
  live : gset nat;
  next_id : nat;
  log : list string
}.

Definition info (msg : string) (st : state) : state :=
  {| pollerIDs := pollerIDs st; live := live st; next_id := next_id st;
     log := log st ++ [msg] |}.

(** Modelled from the spec: [util.js] is not among the sources.  [util.stop]
    cancels the timer of a job ("cancel the timer"). *)
Definition util_stop (id : nat) (st : state) : state :=
  {| pollerIDs := pollerIDs st; live := live st ∖ {[id]};
     next_id := next_id st; log := log st |}.

(** Modelled from the spec: [util.start] arms a fresh interval timer that
    triggers collection "on a fixed interval per job", and returns its
    handle. *)
Definition util_start (st : state) : nat * state :=
  (next_id st,
   {| pollerIDs := pollerIDs st; live := live st ∪ {[next_id st]};
      next_id := S (next_id st); log := log st |}).

(** Modelled from the spec: [util.update] swaps interval and configuration
    of a running job: the old handle is cancelled and a new one
    ("recreated") returned. *)
Definition util_update (id : nat) (st : state) : nat * state :=
  util_start (util_stop id st).

Definition set_pollerID (k : string) (id : nat) (st : state) : state :=
  {| pollerIDs := <[k := id]> (pollerIDs st); live := live st;
     next_id := next_id st; log := log st |}.

Definition delete_pollerID (k : string) (st : state) : state :=
  {| pollerIDs := delete k (pollerIDs st); live := live st;
     next_id := next_id st; log := log st |}.

(** The branch [!systemPollers]: every running poller is stopped and
    forgotten. *)
Definition stop_all (st : state) : state :=
  map_fold (fun k id st => delete_pollerID k (util_stop id st))
           (info "Stopping all running system poller(s)" st)
           (pollerIDs st).

(** The body of [Object.keys(systemPollers).forEach].  The tracer calls
    touch neither [pollerIDs] nor the timers and are left out. *)
Definition each_poller (st : state) (k : string) (cfg : poller_config) : state :=
  match enable cfg with
  | Some false =>
      match pollerIDs st !! k with
      | Some id => delete_pollerID k (util_stop id (info ("Disabling system poller " +:+ k) st))
      | None => st
      end
  | _ =>
      match pollerIDs st !! k with
      | Some id =>
          let '(id', st') := util_update id (info ("Updating system poller " +:+ k) st) in
          set_pollerID k id' st'
      | None =>
          let '(id', st') := util_start (info ("Starting system poller " +:+ k) st) in
          set_pollerID k id' st'
      end
  end.

(** [configWorker.on('change', ...)]: [systemPollers] is [None] when the
    configuration has no entry for the poller class. *)
Definition on_change (systemPollers : option (list (string * poller_config)))
           (st : state) : state :=
  match systemPollers with
  | None => stop_all st
  | Some pollers => fold_left (fun st '(k, cfg) => each_poller st k cfg) pollers st
  end.

(** A job is active when the registry holds a handle for it whose timer is
    armed. *)
Definition active (k : string) (st : state) : Prop :=
  ∃ id, pollerIDs st !! k = Some id ∧ id ∈ live st.

(** Whether the snapshot asks for poller [k] to run. *)
Definition wanted (k : string) (systemPollers : option (list (string * poller_config)))
  : bool :=
  match systemPollers with
  | None => false
  | Some pollers =>
      match obj_get pollers k with
      | Some cfg => match enable cfg with Some false => false | _ => true end
      | None => false
      end
  end.

End Poller.

(** ** Event listener: [start] *)

Module Listener.

(** What the runtime does with [net.createServer] and [server.listen]:
    [listen] either binds, or throws at once (a port out of range), or
    reports the failure later through an ['error'] event (a port in use,
    a missing permission). *)
Inductive listen_outcome : Type :=
| Bound
| ThrowsSync (e : exn)
| EmitsError (e : exn).

Record runtime : Type := {
  createServer_error : option exn;
  listen_result : listen_outcome
}.

(** The server object: its ['error'] listeners, and the error the runtime
    will emit once [start] has returned. *)
Record server : Type := {
  on_error : list (exn -> result unit);
  pending_error : option exn
}.

Definition log := list string.

(** The statements of the [try] block, one after the other; the second
    component is the value of the variable [server] when the block is
    left. *)
Definition try_block (rt : runtime) : result unit * option server :=
  match createServer_error rt with
  | Some e => (Throw e, None)
  | None =>
      let server := {| on_error := []; pending_error := None |} in
      match listen_result rt with
      | ThrowsSync e => (Throw e, Some server)
      | outcome =>
          let pending := match outcome with EmitsError e => Some e | _ => None end in
          (Ret tt,
           Some {| on_error := on_error server ++ [fun err => Throw err];
                   pending_error := pending |})
      end
  end.

(** [start(port)]: the [catch] clause logs what the [try] block threw. *)
Definition start (rt : runtime) (port : Z) (lg : log) : option server * log :=
  match try_block rt with
  | (Throw e, server) =>
      (server, lg ++ ["Unable to start event listener: " +:+ exn_message e])
  | (_, server) => (server, lg)
  end.

(** What becomes of the process when the runtime turns to the server after
    [start] has returned. *)
Inductive outcome : Type :=
| Continues (lg : log)
| Uncaught (e : exn) (lg : log).

(** [server.emit('error', err)] with listeners: they are called in turn,
    and what a listener throws leaves [emit]. *)
Fixpoint emit_error (listeners : list (exn -> result unit)) (err : exn)
  : result unit :=
  match listeners with
  | [] => Ret tt
  | h :: rest =>
      match h err with
      | Ret _ => emit_error rest err
      | r => r
      end
  end.

(** The runtime emits the pending error from its own loop: no frame of the
    listener component is on the stack, so nothing catches what [emit]
    throws.  Without any listener the error itself is thrown. *)
Definition deliver (s : server) (lg : log) : outcome :=
  match pending_error s with
  | None => Continues lg
  | Some err =>
      match on_error s with
      | [] => Uncaught err lg
      | listeners =>
          match emit_error listeners err with
          | Throw e => Uncaught e lg
          | _ => Continues lg
          end
      end
  end.

(** [start], then the next turn of the runtime. *)
Definition start_and_run (rt : runtime) (port : Z) (lg : log) : outcome :=
  match start rt port lg with
  | (Some s, lg') => deliver s lg'
  | (None, lg') => Continues lg'
  end.

End Listener.

(** ** Collaborators, as the specification describes them *)

Module Util.

(** [String(v)], the text of a value used as a property name; [None] is
    [undefined]. *)
Fixpoint js_toString (v : value) : string :=
  match v with
  | JNull => "null"
  | JBool true => "true"
  | JBool false => "false"
  | JNum n => NilEmpty.string_of_int (Z.to_int n)
  | JStr s => s
  | JArr l =>
      (fix join (l : list value) : string :=
         match l with
         | [] => EmptyString
         | [x] => match x with JNull => EmptyString | _ => js_toString x end
         | x :: l' =>
             (match x with JNull => EmptyString | _ => js_toString x end)
               +:+ "," +:+ join l'
         end) l
  | JObj _ => "[object Object]"
  end.

Definition key_text (field : option value) : string :=
  match field with
  | Some v => js_toString v
  | None => "undefined"
  end.

(** Modelled from the spec: [util.convertArrayToMap] is not among the
    sources.  "Each element's keyField value -- optionally prefixed --
    becomes the new key; element retains all fields including the key
    field." *)
Definition convertArrayToMap (data : list value) (key : string)
           (keyPrefix : option string) : result value :=
  let* ret :=
    foldM (fun ret i =>
             let* field := get_prop i key in
             let keyName :=
               match keyPrefix with
               | Some prefix => prefix +:+ key_text field
               | None => key_text field
               end in
             Ret (obj_set ret keyName i)) data [] in
  Ret (JObj ret).

End Util.

(** ** Reference formulations

    Definitions that follow the wording of the specification, to be compared
    with the functions above. *)

Module Reference.

(** The text of [s] before the first [c]; all of [s] when there is none. *)
Fixpoint before_first (c : ascii) (s : string) : string :=
  match s with
  | EmptyString => EmptyString
  | String a s' => if Ascii.eqb a c then EmptyString else String a (before_first c s')
  end.

(** The text of [s] after the first [c], when there is one. *)
Fixpoint after_first (c : ascii) (s : string) : option string :=
  match s with
  | EmptyString => None
  | String a s' => if Ascii.eqb a c then Some s' else after_first c s'
  end.

(** One segment [KEY=VALUE]: the key is the text before the first ['='],
    the value is the text between the first and the second ['='] without
    any double quote.  A segment without ['='] is malformed. *)
Definition classify_segment (seg : string) : option (string * string) :=
  match after_first "=" seg with
  | None => None
  | Some rest =>
      Some (before_first "=" seg, remove_all DQUOTE (before_first "=" rest))
  end.

(** The segments in order, up to the first malformed one; the boolean
    tells whether one was met. *)
Fixpoint classify_segments (ret : list (string * string)) (segs : list string)
  : list (string * string) * bool :=
  match segs with
  | [] => (ret, false)
  | seg :: rest =>
      match classify_segment seg with
      | Some (k, v) => classify_segments (obj_set ret k v) rest
      | None => (ret, true)
      end
  end.

Definition classify (line : string) : list (string * string) * bool :=
  classify_segments [] (js_split (remove_all LF line) ",").

End Reference.

(** Pattern renaming, as a choice among the entries of the table. *)

Module RenameReference.

Import Normalize.

Section WithRegex.

Variable regex : Type.
Variable js_match : string -> regex -> option (list (option string)).

(** An entry applies to a key when its trigger is a substring of the key
    and its regular expression matches the key. *)
Definition applies (k : string) (entry : string * pattern_entry regex) : bool :=
  includes k (fst entry) &&
  bool_decide (is_Some (js_match k (entry_pattern regex (snd entry)))).

(** The name an applying entry gives: the capture group it indicates
    (group 0 by default), or ["undefined"] when the match has no such
    group. *)
Definition target (k : string) (entry : string * pattern_entry regex) : string :=
  match js_match k (entry_pattern regex (snd entry)) with
  | Some groups =>
      default "undefined" (mjoin (nth_error groups (entry_group regex (snd entry))))
  | None => k
  end.

(** The key renamed by the first applying entry, in declaration order. *)
Definition key_by_first_match (k : string) (patterns : list (string * pattern_entry regex))
  : string :=
  match find (applies k) patterns with
  | Some entry => target k entry
  | None => k
  end.

(** The key renamed by the last applying entry, in declaration order. *)
Definition key_by_last_match (k : string) (patterns : list (string * pattern_entry regex))
  : string :=
  match find (applies k) (rev patterns) with
  | Some entry => target k entry
  | None => k
  end.

(** The loop over the pattern table, as one step per entry: an applying
    entry overwrites what earlier entries chose. *)
Definition check_step (k : string) (acc : bool * option string)
           (entry : string * pattern_entry regex) : bool * option string :=
  if applies k entry
  then (true,
        mjoin (nth_error (default [] (js_match k (entry_pattern regex (snd entry))))
                         (entry_group regex (snd entry))))
  else acc.

End WithRegex.

(** The arrays met when walking down a tree through objects only. *)
Fixpoint arrays_under (v : value) : list (list value) :=
  match v with
  | JArr l => [l]
  | JObj kvs => flat_map (fun '(_, v') => arrays_under v') kvs
  | _ => []
  end.

End RenameReference.

(** A regular expression without metacharacters, given as a string: it
    matches wherever the string occurs, and group 0 is the string. *)
Definition literal_match (k : string) (r : string) : option (list (option string)) :=
  if includes k r then Some [Some r] else None.

(** The facade, as a pipeline of stages. *)

Module FacadeReference.

Import Normalize.

Definition stage : Type := value -> result value.

(** The stages one after the other; the first exception ends the run. *)
Definition run_stages (stages : list stage) (data : value) : result value :=
  foldM (fun v (s : stage) => s v) stages data.

(** A stage that is there only when its option is. *)
Definition optional {A} (o : option A) (f : A -> stage) : list stage :=
  match o with
  | Some a => [f a]
  | None => []
  end.

(** The key path that is given: JavaScript takes an empty string for an
    absent option. *)
Definition given_key (key : option string) : option string :=
  match key with
  | Some k => if String.eqb k EmptyString then None else Some k
  | None => None
  end.

Section WithCollaborators.

Variable regex : Type.
Variable js_match : string -> regex -> option (list (option string)).
Variable convertArrayToMap : list value -> string -> option string -> result value.
Variable filterDataByKeys : value -> list string -> result value.
Variable normalizeUtil : string -> option (list (string * value) -> result value).
Variable STATS_KEY_SEP : string.

(** reduce, then key-descend, filter, rename, custom function. *)
Definition normalizeStats (fuel : nat) (tree : value) (opts : options regex)
  : result value :=
  run_stages
    ([fun v => reduceData convertArrayToMap fuel v (o_convertArrayToMap opts)]
       ++ optional (given_key (o_key opts))
                   (fun key v => getDataByKey STATS_KEY_SEP v key)
       ++ optional (o_filterByKeys opts)
                   (fun keys v => filterDataByKeys v keys)
       ++ optional (o_renameKeysByPattern opts)
                   (fun patterns v => renameKeysInData regex js_match v patterns)
       ++ optional (o_runCustomFunction opts)
                   (fun rcf v => runCustomFunction normalizeUtil v (name rcf) (args rcf)))
    tree.

End WithCollaborators.

End FacadeReference.

(** Shapes of trees the reducer is stated on. *)

Module ReduceReference.

Import Normalize.

Fixpoint distinct (l : list string) : bool :=
  match l with
  | [] => true
  | k :: l' => negb (existsb (String.eqb k) l') && distinct l'
  end.

(** A value is well formed when no object in it lists a key twice: every
    JavaScript object is. *)
Fixpoint wf (v : value) : bool :=
  match v with
  | JArr l => forallb wf l
  | JObj kvs => distinct (map fst kvs) && forallb (fun '(_, v') => wf v') kvs
  | _ => true
  end.

(** The nesting depth of a value. *)
Fixpoint depth (v : value) : nat :=
  match v with
  | JArr l => S (list_max (map depth l))
  | JObj kvs => S (list_max (map (fun '(_, v') => depth v') kvs))
  | _ => 1
  end.

(** A bound on the depth of the calls of the reducer when arrays are not
    converted: the value under [entries] costs one more level, that of its
    expansion. *)
Fixpoint fuel_bound (v : value) : nat :=
  match v with
  | JArr l => S (list_max (map fuel_bound l))
  | JObj kvs =>
      S (list_max (map (fun '(k, v') =>
                          if String.eqb k "entries" then S (fuel_bound v')
                          else fuel_bound v') kvs))
  | _ => 1
  end.

(** A string, a number or a boolean. *)
Definition is_scalar (v : value) : bool :=
  match v with JBool _ | JNum _ | JStr _ => true | _ => false end.

(** [core] wrapped in single-key objects, the outermost key first. *)
Fixpoint wrap_chain (keys : list string) (core : value) : value :=
  match keys with
  | [] => core
  | w :: keys' => JObj [(w, wrap_chain keys' core)]
  end.

(** [reduceData] returns or throws [res], with some fuel. *)
Definition reduces_to
           (convertArrayToMap : list value -> string -> option string -> result value)
           (data : value) (catm : option catm_options) (res : result value) : Prop :=
  res <> OutOfFuel /\ exists fuel, reduceData convertArrayToMap fuel data catm = res.

(** The generic rule on an object with distinct keys: every value reduced,
    the keys kept in order. *)
Definition reduce_values (reduce : value -> result value)
           (kvs : list (string * value)) : result value :=
  let* rs := mapM reduce (map snd kvs) in
  Ret (JObj (combine (map fst kvs) rs)).

End ReduceReference.

(** ** Test data *)

Definition quoted (s : string) : string :=
  String DQUOTE s +:+ String DQUOTE EmptyString.

(** [A="1",B="2"] *)
Definition line_two_fields : string :=
  "A=" +:+ quoted "1" +:+ ",B=" +:+ quoted "2".

(** [A="1",Bnoequals] *)
Definition line_malformed : string :=
  "A=" +:+ quoted "1" +:+ ",Bnoequals".

(** [KEY="a=b"] *)
Definition line_equals_in_value : string :=
  "KEY=" +:+ quoted "a=b".

(** The tree of the end-to-end scenario:
    [{entries: {"https://localhost/mgmt/tm/sys/x/0.0/stats":
       {nestedStats: {entries: {value: {description: "5"}}}}}}] *)
Definition raw_stat_tree : value :=
  JObj [("entries",
         JObj [("https://localhost/mgmt/tm/sys/x/0.0/stats",
                JObj [("nestedStats",
                       JObj [("entries",
                              JObj [("value",
                                     JObj [("description", JStr "5")])])])])])].

(** An array of two pools, converted to a map by [name]. *)
Definition pools : value :=
  JArr [JObj [("name", JStr "a"); ("port", JObj [("value", JNum 80)])];
        JObj [("name", JStr "b"); ("port", JObj [("value", JNum 443)])]].

Definition pools_by_name : option Normalize.catm_options :=
  Some {| Normalize.keyName := Some "name"; Normalize.keyNamePrefix := Some "pool_" |}.

(** The registry holds poller [A] with timer 0. *)
Definition registry_with_A : Poller.state :=
  {| Poller.pollerIDs := {["A" := 0]}; Poller.live := {[0]};
     Poller.next_id := 1; Poller.log := [] |}.

(** A configuration from which [A] is gone and that declares [B]. *)
Definition snapshot_with_B : option (list (string * Poller.poller_config)) :=
  Some [("B", {| Poller.interval := 60; Poller.enable := None |})].

(** The port is taken: [listen] reports it through an ['error'] event. *)
Definition port_in_use : Listener.runtime :=
  {| Listener.createServer_error := None;
     Listener.listen_result :=
       Listener.EmitsError (Error "listen EADDRINUSE: address already in use :::6514") |}.

(** ** One collection cycle: [process], [safeProcess], [processClientRequest] *)

Module PollerCycle.

Import Poller.

(** What a cycle does to the outside, oldest first. *)
Inductive effect : Type :=
| Debug (msg : string)
| TracerWrite (payload : value)
| PipelineProcess (payload : value) (category : string)
| LogException (msg : string) (e : exn)
| LogError (msg : string)
| Respond (code : Z) (body : value).

(** A settled promise. *)
Inductive settled (A : Type) : Type :=
| Resolved (a : A)
| Rejected (e : exn).

Arguments Resolved {A} a.
Arguments Rejected {A} e.

(** What [new SystemStats().collect(...)] does: it throws at once, or
    returns a promise that rejects, or one that resolves with an object. *)
Inductive collect_outcome : Type :=
| CollectThrows (e : exn)
| CollectRejects (e : exn)
| CollectResolves (data : list (string * value)).

(** [args] of [process]: [process] is [None] when the caller leaves it
    out, [tracer] tells whether a tracer is given. *)
Record args : Type := {
  config : poller_config;
  process_flag : option bool;
  tracer : bool
}.

Section WithCollaborators.

(** [systemStats.js], [dataPipeline.js] and [constants.js] are not among the
    sources; the clock is the runtime's. *)
Variable collect : poller_config -> collect_outcome.
(** [dataPipeline.process(data, type)]: what it throws, if it does. *)
Variable dataPipeline_process : value -> string -> option exn.
(** [constants.EVENT_TYPES.SYSTEM_POLLER] *)
Variable SYSTEM_POLLER : string.
(** [new Date().toISOString()] before the collection and after it. *)
Variable cycleStart cycleEnd : string.

(** The service data injected into the collected object. *)
Definition inject (cfg : poller_config) (data : list (string * value))
  : list (string * value) :=
  let telemetryServiceInfo :=
    JObj [("pollingInterval", JNum (Z.of_nat (interval cfg)));
          ("cycleStart", JStr cycleStart);
          ("cycleEnd", JStr cycleEnd)] in
  obj_set (obj_set data "telemetryServiceInfo" telemetryServiceInfo)
          "telemetryEventCategory" (JStr SYSTEM_POLLER).

(** The callback of [.then] in [process]: the value it returns or the
    exception it throws, and its effects. *)
Definition on_collected (a : args) (data : list (string * value))
  : settled (option value) * list effect :=
  let data := inject (config a) data in
  let traced := if tracer a then [TracerWrite (JObj data)] else [] in
  match process_flag a with
  | Some false =>
      (Resolved (Some (JObj data)), traced ++ [Debug "System poller cycle finished"])
  | _ =>
      match dataPipeline_process (JObj data) SYSTEM_POLLER with
      | Some e => (Rejected e, traced ++ [PipelineProcess (JObj data) SYSTEM_POLLER])
      | None =>
          (Resolved None,
           traced ++ [PipelineProcess (JObj data) SYSTEM_POLLER;
                      Debug "System poller cycle finished"])
      end
  end.

(** [process(args)]: [Throw] when the call itself throws, else the promise
    it returns, settled; the [.catch] of [process] throws again what it
    gets. *)
Definition process (a : args) : result (settled (option value)) * list effect :=
  let started := [Debug "System poller cycle started"] in
  match collect (config a) with
  | CollectThrows e => (Throw e, started)
  | CollectRejects e => (Ret (Rejected e), started)
  | CollectResolves data =>
      let '(p, fx) := on_collected a data in (Ret p, started ++ fx)
  end.

(** [safeProcess]: both the [catch] clause and the [.catch] of the chain
    log. *)
Definition safeProcess (a : args) : list effect :=
  match process a with
  | (Throw e, fx) => fx ++ [LogException "safeProcess unhandled exception" e]
  | (Ret (Rejected e), fx) =>
      fx ++ [LogException "safeProcess unhandled exception in promise-chain" e]
  | (_, fx) => fx
  end.

(** [processClientRequest]: [pathname] is [restOperation.getUri().pathname],
    [systemPollers] the pollers of the parsed configuration ([[]] when there
    are none).  The call of [process] is not inside a [try]. *)
Definition processClientRequest (pathname : string)
           (systemPollers : list (string * poller_config))
  : result unit * list effect :=
  let pollerName := nth_error (js_split pathname "/") 4 in
  match pollerName with
  | None | Some EmptyString =>
      (Ret tt,
       [Respond 400 (JObj [("code", JNum 400);
                           ("message", JStr "Bad Request. Poller's name not specified.")])])
  | Some pollerName =>
      match obj_get systemPollers pollerName with
      | None =>
          (Ret tt,
           [Respond 404 (JObj [("code", JNum 404);
                               ("message", JStr "Poller with such name not found.")])])
      | Some cfg =>
          match process {| config := cfg; process_flag := Some false; tracer := false |} with
          | (Throw e, fx) => (Throw e, fx)
          | (Ret (Resolved data), fx) =>
              (Ret tt, fx ++ [Respond 200 (default JNull data)])
          | (Ret (Rejected err), fx) =>
              (Ret tt,
               fx ++ [LogError ("poller request ended up with error: " +:+ exn_message err);
                      Respond 500
                        (JObj [("code", JNum 500);
                               ("message",
                                JStr ("systemPoller.process error: " +:+ exn_message err))])])
          | (OutOfFuel, fx) => (OutOfFuel, fx)
          end
      end
  end.

End WithCollaborators.

Definition is_dispatch (fx : effect) : bool :=
  match fx with PipelineProcess _ _ => true | _ => false end.

Definition is_trace (fx : effect) : bool :=
  match fx with TracerWrite _ => true | _ => false end.

Definition is_response (fx : effect) : bool :=
  match fx with Respond _ _ => true | _ => false end.

Definition is_logged (fx : effect) : bool :=
  match fx with LogException _ _ | LogError _ => true | _ => false end.

End PollerCycle.

(** ** Event listener: the handler of the configuration-change event *)

Module ListenerHandler.

Import Listener.

(** The module variable [listener], what the logger has received (at any
    level), and how many times [start] has been called. *)
Record state : Type := {
  listener : option server;
  log : list string;
  starts : nat
}.

(** The port as a template literal prints it. *)
Definition port_text (port : Z) : string :=
  NilEmpty.string_of_int (Z.to_int port).

(** [configHandler.on('change', ...)]; [rt] is what the runtime would do
    with a server created now.  [start] catches what it meets, so the
    [catch] clause around its call is never entered; [listener] becomes what
    [start] returns, [undefined] when no server object was created. *)
Definition on_change (rt : runtime) (DEFAULT_PORT : Z) (st : state) : state :=
  let lg := log st ++ ["configHandler change event in eventListenerHandler"] in
  match listener st with
  | None =>
      let '(srv, lg') :=
        start rt DEFAULT_PORT
              (lg ++ ["Starting listener on port " +:+ port_text DEFAULT_PORT]) in
      {| listener := srv; log := lg'; starts := S (starts st) |}
  | Some _ =>
      {| listener := listener st;
         log := lg ++ ["Already listening on port " +:+ port_text DEFAULT_PORT];
         starts := starts st |}
  end.

(** The change events of a run, each with the runtime of its moment. *)
Definition on_changes (rts : list runtime) (DEFAULT_PORT : Z) (st : state) : state :=
  fold_left (fun st rt => on_change rt DEFAULT_PORT st) rts st.

End ListenerHandler.

(** ** Shapes of trees and of their keys *)

Module Shapes.

Import Normalize.

(** No [null] anywhere in the value. *)
Fixpoint null_free (v : value) : bool :=
  match v with
  | JNull => false
  | JArr l => forallb null_free l
  | JObj kvs => forallb (fun '(_, v') => null_free v') kvs
  | _ => true
  end.

(** No [null] that is reached through objects only. *)
Fixpoint null_free_objects (v : value) : bool :=
  match v with
  | JNull => false
  | JObj kvs => forallb (fun '(_, v') => null_free_objects v') kvs
  | _ => true
  end.

(** The keys of the objects reached through objects only. *)
Fixpoint keys_under (v : value) : list string :=
  match v with
  | JObj kvs => flat_map (fun '(k, v') => k :: keys_under v') kvs
  | _ => []
  end.

(** An object on which neither the wrapper rule nor the entries rule of the
    reducer applies. *)
Definition settled_object (kvs : list (string * value)) : bool :=
  negb (Nat.eqb (List.length kvs) 1 && existsb (fun '(k, _) => existsb (String.eqb k) keysToReduce) kvs)
  && match obj_get kvs "entries" with
     | Some e => negb (truthy e)
     | None => true
     end.

(** No [null], and no object, at any depth, that the reducer would still
    unwrap or expand. *)
Fixpoint reduced (v : value) : bool :=
  match v with
  | JNull => false
  | JArr l => forallb reduced l
  | JObj kvs => settled_object kvs && forallb (fun '(_, v') => reduced v') kvs
  | _ => true
  end.

(** No array at any depth. *)
Fixpoint array_free (v : value) : bool :=
  match v with
  | JArr _ => false
  | JObj kvs => forallb (fun '(_, v') => array_free v') kvs
  | _ => true
  end.

(** The characters of a string. *)
Fixpoint has_char (c : ascii) (s : string) : bool :=
  match s with
  | EmptyString => false
  | String a s' => Ascii.eqb a c || has_char c s'
  end.

(** The last value given to [k] in a list of assignments. *)
Fixpoint last_value {A} (l : list (string * A)) (k : string) : option A :=
  match l with
  | [] => None
  | (k', v) :: l' =>
      match last_value l' k with
      | Some v' => Some v'
      | None => if String.eqb k' k then Some v else None
      end
  end.


End Shapes.

(** ** The registry and the timers *)

Module PollerShapes.

Import Poller.

(** The armed timers are those of the registry, one for each poller: every
    registered handle is armed, every armed timer is some poller's handle,
    no two pollers share a handle, and handles are older than the next one
    to be given out. *)
Definition consistent (st : state) : Prop :=
  (∀ k id, pollerIDs st !! k = Some id → id ∈ live st) ∧
  (∀ id, id ∈ live st → ∃ k, pollerIDs st !! k = Some id) ∧
  (∀ k k' id, pollerIDs st !! k = Some id → pollerIDs st !! k' = Some id → k = k') ∧
  (∀ id, id ∈ live st → (id < next_id st)%nat).

(** Whether a configuration entry asks for its poller to run. *)
Definition enabled (cfg : poller_config) : bool :=
  match enable cfg with Some false => false | _ => true end.

End PollerShapes.

(** * Properties *)

(** ** Event classifier *)

Section EventFacts.

Import Event Reference.

Lemma split_char_nil (c : ascii) :
  js_split EmptyString (String c EmptyString) = [EmptyString].
Proof. reflexivity. Qed.

Lemma split_char_cons (c a : ascii) (s : string) :
  js_split (String a s) (String c EmptyString) =
  if Ascii.eqb a c then EmptyString :: js_split s (String c EmptyString)
  else match js_split s (String c EmptyString) with
       | piece :: rest => String a piece :: rest
       | [] => [String a EmptyString]
       end.
Proof.
  unfold js_split. simpl. rewrite Ascii.eqb_sym.
  destruct (Ascii.eqb a c); reflexivity.
Qed.

(** [split] on one character yields the text before the first separator,
    followed by the pieces of what comes after it. *)
Lemma split_char_first (c : ascii) (s : string) :
  js_split s (String c EmptyString) =
  before_first c s ::
    match after_first c s with
    | Some rest => js_split rest (String c EmptyString)
    | None => []
    end.
Proof.
  induction s as [|a s IH].
  - reflexivity.
  - rewrite split_char_cons. simpl.
    destruct (Ascii.eqb a c); [reflexivity|].
    rewrite IH. reflexivity.
Qed.

Lemma each_segment_classify ret i :
  each_segment ret i =
  match classify_segment i with
  | Some (k, v) => (obj_set ret k v, None)
  | None => (ret, Some (TypeError "Cannot read property 'replace' of undefined"))
  end.
Proof.
  unfold each_segment, classify_segment.
  change "="%string with (String "="%char EmptyString).
  rewrite (split_char_first "=" i).
  destruct (after_first "=" i) as [rest|]; [|reflexivity].
  rewrite (split_char_first "=" rest). reflexivity.
Qed.

Lemma forEach_segment_classify segs : ∀ ret,
  forEach_segment ret segs =
  match classify_segments ret segs with
  | (ret', true) =>
      (ret', Some (TypeError "Cannot read property 'replace' of undefined"))
  | (ret', false) => (ret', None)
  end.
Proof.
  induction segs as [|i segs IH]; intros ret; simpl.
  - reflexivity.
  - rewrite each_segment_classify.
    destruct (classify_segment i) as [[k v]|]; [apply IH | reflexivity].
Qed.

Lemma classify_segments_app good : ∀ ret bad rest,
  classify_segment bad = None →
  classify_segments ret (good ++ bad :: rest) =
  (fst (classify_segments ret good), true) ∨
  snd (classify_segments ret good) = true.
Proof.
  induction good as [|g good IH]; intros ret bad rest Hbad; simpl.
  - rewrite Hbad. left. reflexivity.
  - destruct (classify_segment g) as [[k v]|].
    + apply IH, Hbad.
    + right. reflexivity.
Qed.

Lemma after_first_none c s :
  includes s (String c EmptyString) = false → after_first c s = None.
Proof.
  induction s as [|a s IH]; simpl; [reflexivity|].
  rewrite Ascii.eqb_sym.
  destruct (Ascii.eqb a c); simpl.
  - destruct s; discriminate.
  - apply IH.
Qed.

End EventFacts.

Section EventClaims.

Import Event Reference.

(** C4: the classifier never raises.  On [A="1",B="2"] it returns
    [{A:"1", B:"2"}]; on [A="1",Bnoequals] it returns the partial record
    [{A:"1"}] and logs; in general, when a segment without ['='] follows
    well-formed ones, it returns the record of those and logs once. *)
Theorem formatAsJson_fails_soft :
  (∀ line lg, ∃ ret lg', normalizeEvent line lg = (Ret ret, lg')) ∧
  normalizeEvent line_two_fields [] = (Ret [("A", "1"); ("B", "2")], []) ∧
  normalizeEvent line_malformed [] =
    (Ret [("A", "1")],
     ["formatAsJson error: TypeError: Cannot read property 'replace' of undefined"]) ∧
  (∀ line lg good bad rest ret,
     js_split (remove_all LF line) "," = good ++ bad :: rest →
     forEach_segment [] good = (ret, None) →
     includes bad "=" = false →
     normalizeEvent line lg =
       (Ret ret,
        lg ++ ["formatAsJson error: TypeError: Cannot read property 'replace' of undefined"])).
Proof.
  split; [|split; [reflexivity|split; [reflexivity|]]].
  - intros line lg. unfold normalizeEvent, formatAsJson.
    destruct (try_block line) as [ret [e|]]; eauto.
  - intros line lg good bad rest ret Hsplit Hgood Hbad.
    unfold normalizeEvent, formatAsJson, try_block.
    rewrite Hsplit, forEach_segment_classify.
    rewrite forEach_segment_classify in Hgood.
    assert (Hnone : classify_segment bad = None).
    { unfold classify_segment.
      rewrite (after_first_none "=" bad Hbad). reflexivity. }
    destruct (classify_segments_app good [] bad rest Hnone) as [Heq|Hstop].
    + rewrite Heq.
      destruct (classify_segments [] good) as [ret' [|]]; [discriminate|].
      injection Hgood as ->. reflexivity.
    + destruct (classify_segments [] good) as [ret' [|]]; discriminate.
Qed.

Lemma formatAsJson_fails_soft_witness :
  normalizeEvent line_malformed ["earlier entry"] =
    (Ret [("A", "1")],
     ["earlier entry";
      "formatAsJson error: TypeError: Cannot read property 'replace' of undefined"]).
Proof.
  apply (proj2 (proj2 (proj2 formatAsJson_fails_soft))
           line_malformed ["earlier entry"] ["A=" +:+ quoted "1"] "Bnoequals" []);
    reflexivity.
Defined.

(** C5, as the code has it: the line loses its newlines and is split on
    [','], each segment is split on every ['='], the first piece is the key
    and the second piece, with every double quote removed, is the value;
    what follows a second ['='] is dropped.  For [KEY="a=b"] the record
    maps [KEY] to [a]. *)
Theorem formatAsJson_splits_on_every_equals :
  (∀ line lg,
     normalizeEvent line lg =
     match classify line with
     | (ret, false) => (Ret ret, lg)
     | (ret, true) =>
         (Ret ret,
          lg ++ ["formatAsJson error: TypeError: Cannot read property 'replace' of undefined"])
     end) ∧
  normalizeEvent line_equals_in_value [] = (Ret [("KEY", "a")], []).
Proof.
  split; [|reflexivity].
  intros line lg. unfold normalizeEvent, formatAsJson, try_block, classify.
  rewrite forEach_segment_classify.
  destruct (classify_segments _ _) as [ret [|]]; reflexivity.
Qed.

(** The value of [KEY="a=b"] is not kept whole: the record does not map
    [KEY] to [a=b]. *)
Lemma formatAsJson_equals_in_value_cut :
  ¬ ∃ lg, normalizeEvent line_equals_in_value [] = (Ret [("KEY", "a=b")], lg).
Proof. intros [lg H]. vm_compute in H. discriminate H. Qed.

End EventClaims.

(** ** Pattern renaming *)

(** Induction on JSON values, with the hypothesis for the elements of an
    array and for the property values of an object. *)
Lemma value_ind_nested (P : value → Prop)
  (Hnull : P JNull) (Hbool : ∀ b, P (JBool b)) (Hnum : ∀ n, P (JNum n))
  (Hstr : ∀ s, P (JStr s))
  (Harr : ∀ l, Forall P l → P (JArr l))
  (Hobj : ∀ kvs, Forall (λ kv, P (snd kv)) kvs → P (JObj kvs)) :
  ∀ v, P v.
Proof.
  fix IH 1. intros [| b | n | s | l | kvs].
  - exact Hnull.
  - apply Hbool.
  - apply Hnum.
  - apply Hstr.
  - apply Harr. induction l as [|v l IHl]; constructor; [apply IH | exact IHl].
  - apply Hobj. induction kvs as [|[k v] kvs IHl]; constructor; [apply IH | exact IHl].
Qed.

Section RenameFacts.

Import Normalize RenameReference.

Variable regex : Type.
Variable js_match : string → regex → option (list (option string)).

Local Abbreviation check_patterns := (check_patterns regex js_match).
Local Abbreviation new_key := (new_key regex js_match).
Local Abbreviation renameKeysInData := (renameKeysInData regex js_match).
Local Abbreviation applies := (applies regex js_match).
Local Abbreviation target := (target regex js_match).
Local Abbreviation key_by_last_match := (key_by_last_match regex js_match).
Local Abbreviation key_by_first_match := (key_by_first_match regex js_match).

Local Abbreviation check_step := (check_step regex js_match).

Lemma check_patterns_fold k patterns :
  check_patterns k patterns = fold_left (check_step k) patterns (false, None).
Proof.
  unfold Normalize.check_patterns.
  generalize (false, @None string).
  induction patterns as [|[pK e] patterns IH]; intros [rk rd]; simpl; [reflexivity|].
  rewrite IH. f_equal.
  unfold RenameReference.check_step, RenameReference.applies. simpl.
  destruct (includes k pK); simpl; [|reflexivity].
  destruct (js_match k (entry_pattern regex e)) as [groups|]; reflexivity.
Qed.

Lemma check_patterns_last k patterns :
  check_patterns k patterns =
  match find (applies k) (rev patterns) with
  | Some entry => check_step k (false, None) entry
  | None => (false, None)
  end.
Proof.
  rewrite check_patterns_fold.
  induction patterns as [|entry patterns IH] using rev_ind; [reflexivity|].
  rewrite fold_left_app, rev_app_distr. simpl.
  unfold RenameReference.check_step at 1.
  destruct (applies k entry) eqn:Happ.
  - unfold RenameReference.check_step. rewrite Happ. reflexivity.
  - exact IH.
Qed.

Lemma new_key_last k patterns : new_key k patterns = key_by_last_match k patterns.
Proof.
  unfold Normalize.new_key, RenameReference.key_by_last_match.
  rewrite check_patterns_last.
  destruct (find (applies k) (rev patterns)) as [entry|] eqn:Hfind; [|reflexivity].
  apply find_some in Hfind as [_ Happ].
  unfold RenameReference.check_step. rewrite Happ.
  unfold RenameReference.applies in Happ.
  apply andb_prop in Happ as [_ Hm]. apply bool_decide_eq_true in Hm as [groups Hm].
  unfold RenameReference.target. rewrite Hm. simpl.
  destruct (mjoin (nth_error groups _)); reflexivity.
Qed.

Lemma find_none_all {A} (f : A → bool) (l : list A) :
  (∀ x, In x l → f x = false) → find f l = None.
Proof.
  induction l as [|a l IH]; intros H; simpl; [reflexivity|].
  rewrite (H a) by (left; reflexivity). apply IH. intros x Hx. apply H. right. exact Hx.
Qed.

Lemma renameKeysInData_obj kvs patterns :
  renameKeysInData (JObj kvs) patterns =
  let* ret :=
    foldM (λ ret '(k, v),
             let* r := renameKeysInData v patterns in
             Ret (obj_set ret (key_by_last_match k patterns) r)) kvs [] in
  Ret (JObj ret).
Proof.
  simpl. f_equal.
  generalize (@nil (string * value)).
  induction kvs as [|[k v] kvs IH]; intros acc; simpl; [reflexivity|].
  destruct (renameKeysInData v patterns); simpl; try reflexivity.
  rewrite new_key_last. apply IH.
Qed.

(** C1, as the code has it: the loop over the pattern table does not stop
    at a match, so a key is renamed by the last entry, in declaration
    order, whose trigger is a substring of the key and whose regular
    expression matches it.  The new key is the capture group that entry
    indicates (group 0 by default; the name "undefined" when the match has
    no such group).  A key to which no entry applies keeps its name. *)
Theorem renameKeysInData_last_match_wins :
  (∀ k patterns, new_key k patterns = key_by_last_match k patterns) ∧
  (∀ kvs patterns,
     renameKeysInData (JObj kvs) patterns =
     let* ret :=
       foldM (λ ret '(k, v),
                let* r := renameKeysInData v patterns in
                Ret (obj_set ret (key_by_last_match k patterns) r)) kvs [] in
     Ret (JObj ret)) ∧
  (∀ k patterns,
     (∀ entry, In entry patterns → applies k entry = false) →
     new_key k patterns = k).
Proof.
  split; [exact new_key_last|split; [exact renameKeysInData_obj|]].
  intros k patterns Hnone. rewrite new_key_last.
  unfold RenameReference.key_by_last_match.
  rewrite find_none_all; [reflexivity|].
  intros entry Hin. apply Hnone. apply in_rev. exact Hin.
Qed.

Lemma obj_set_arrays_under (acc : list (string * value)) k v l :
  In l (flat_map (λ '(_, v'), arrays_under v') (obj_set acc k v)) →
  In l (flat_map (λ '(_, v'), arrays_under v') acc) ∨ In l (arrays_under v).
Proof.
  induction acc as [|[k' v'] acc IH]; simpl.
  - rewrite app_nil_r. auto.
  - destruct (String.eqb k' k); simpl; rewrite !in_app_iff; intuition.
Qed.

Lemma rename_loop_arrays patterns kvs :
  Forall (λ kv, ∀ r, renameKeysInData (snd kv) patterns = Ret r →
                     ∀ l, In l (arrays_under r) → In l (arrays_under (snd kv))) kvs →
  ∀ acc ret,
    foldM (λ ret '(k, v),
             let* r := renameKeysInData v patterns in
             Ret (obj_set ret (new_key k patterns) r)) kvs acc = Ret ret →
    ∀ l, In l (flat_map (λ '(_, v'), arrays_under v') ret) →
         In l (flat_map (λ '(_, v'), arrays_under v') acc) ∨
         In l (flat_map (λ '(_, v'), arrays_under v') kvs).
Proof.
  induction 1 as [|[k v] kvs Hv _ IH]; intros acc ret Hrun l Hl; simpl in *.
  - injection Hrun as ->. auto.
  - destruct (renameKeysInData v patterns) as [r| |] eqn:Hr; simpl in Hrun;
      try discriminate.
    destruct (IH _ _ Hrun l Hl) as [Hacc|Hrest].
    + apply obj_set_arrays_under in Hacc as [Hacc|Hnew]; [auto|].
      right. apply in_app_iff. left. exact (Hv r eq_refl l Hnew).
    + right. apply in_app_iff. right. exact Hrest.
Qed.

(** C10: an array is returned as it is, elements included, whatever the
    pattern table; and every array found in the result when walking down
    through objects is an array of the input, unchanged. *)
Theorem renameKeysInData_keeps_arrays :
  (∀ l patterns, renameKeysInData (JArr l) patterns = Ret (JArr l)) ∧
  (∀ t patterns r,
     renameKeysInData t patterns = Ret r →
     ∀ l, In l (arrays_under r) → In l (arrays_under t)).
Proof.
  split; [reflexivity|].
  intros t patterns. induction t as [| b | n | s | l _ | kvs IH] using value_ind_nested;
    intros r Hr l' Hl'; simpl in Hr; try discriminate;
    try (injection Hr as <-; exact Hl').
  destruct (foldM _ kvs []) as [ret| |] eqn:Hrun; simpl in Hr; try discriminate.
  injection Hr as <-. simpl in Hl'.
  destruct (rename_loop_arrays patterns kvs IH [] ret Hrun l' Hl') as [[]|Hin].
  exact Hin.
Qed.

End RenameFacts.

Lemma renameKeysInData_last_match_wins_witness :
  Normalize.new_key string literal_match "xyz" [("a", Normalize.Plain "a")] = "xyz".
Proof.
  apply (proj2 (proj2 (renameKeysInData_last_match_wins string literal_match))).
  intros entry [<-|[]]. reflexivity.
Defined.

(** The first match does not win: with the table [{a: "a", ab: "ab"}] both
    entries apply to the key [ab]; the first would rename it to [a], the
    code keeps what the last one gives, [ab]. *)
Lemma renameKeysInData_first_match_overwritten :
  Normalize.renameKeysInData string literal_match
    (JObj [("ab", JNum 1)]) [("a", Normalize.Plain "a"); ("ab", Normalize.Plain "ab")]
  = Ret (JObj [("ab", JNum 1)]) ∧
  RenameReference.key_by_first_match string literal_match
    "ab" [("a", Normalize.Plain "a"); ("ab", Normalize.Plain "ab")] = "a" ∧
  Normalize.new_key string literal_match
    "ab" [("a", Normalize.Plain "a"); ("ab", Normalize.Plain "ab")]
  ≠ RenameReference.key_by_first_match string literal_match
    "ab" [("a", Normalize.Plain "a"); ("ab", Normalize.Plain "ab")].
Proof. repeat split. vm_compute. discriminate. Qed.

Lemma renameKeysInData_keeps_arrays_witness :
  In [JObj [("ab", JNum 1)]]
     (RenameReference.arrays_under
        (JObj [("abc", JArr [JObj [("ab", JNum 1)]])])).
Proof.
  apply (proj2 (renameKeysInData_keeps_arrays string literal_match)
           (JObj [("abc", JArr [JObj [("ab", JNum 1)]])])
           [("ab", Normalize.Plain "ab")]
           (JObj [("ab", JArr [JObj [("ab", JNum 1)]])])).
  - reflexivity.
  - simpl. left. reflexivity.
Defined.

(** ** Tree reducer *)

Lemma all_digits_uint (d : Decimal.uint) :
  all_digits (NilEmpty.string_of_uint d) = true.
Proof. induction d; simpl; auto. Qed.

Lemma obj_get_indexed_none {A} (w : string) (l : list A) :
  all_digits w = false → ∀ i, obj_get (indexed_from i l) w = None.
Proof.
  intros Hw. induction l as [|a l IH]; intros i; simpl; [reflexivity|].
  destruct (String.eqb_spec (index_name i) w) as [<-|_]; [|apply IH].
  unfold index_name in Hw. rewrite all_digits_uint in Hw. discriminate.
Qed.

Lemma obj_get_none_iff {A} (o : list (string * A)) (w : string) :
  obj_get o w = None ↔ ¬ In w (map fst o).
Proof.
  induction o as [|[k v] o IH]; simpl.
  - tauto.
  - destruct (String.eqb_spec k w) as [->|Hne].
    + split; [discriminate|]. intros H. exfalso. apply H. left. reflexivity.
    + rewrite IH. tauto.
Qed.

Lemma obj_get_in {A} (o : list (string * A)) (w : string) (v : A) :
  obj_get o w = Some v → In (w, v) o.
Proof.
  induction o as [|[k v'] o IH]; simpl; [discriminate|].
  destruct (String.eqb_spec k w) as [->|_].
  - intros [= ->]. left. reflexivity.
  - intros H. right. apply IH, H.
Qed.

Lemma obj_set_fresh {A} (o : list (string * A)) (k : string) (v : A) :
  ¬ In k (map fst o) → obj_set o k v = o ++ [(k, v)].
Proof.
  induction o as [|[k' v'] o IH]; simpl; intros Hk; [reflexivity|].
  destruct (String.eqb_spec k' k) as [->|_].
  - exfalso. apply Hk. left. reflexivity.
  - rewrite IH; [reflexivity|]. intros H. apply Hk. right. exact H.
Qed.

Lemma obj_set_keys {A} (o : list (string * A)) (k : string) (v : A) :
  ∀ k', In k' (map fst (obj_set o k v)) ↔ k' = k ∨ In k' (map fst o).
Proof.
  induction o as [|[k0 v0] o IH]; intros k'; simpl.
  - intuition.
  - destruct (String.eqb_spec k0 k) as [->|_]; simpl; [|rewrite IH]; intuition.
Qed.

Lemma obj_set_values {A} (o : list (string * A)) (k : string) (v : A) :
  ∀ kv, In kv (obj_set o k v) → snd kv = v ∨ In kv o.
Proof.
  induction o as [|[k0 v0] o IH]; intros kv; simpl.
  - intros [<-|[]]. left. reflexivity.
  - destruct (String.eqb_spec k0 k) as [->|_]; simpl.
    + intros [<-|H]; auto.
    + intros [<-|H]; [auto|]. destruct (IH kv H); auto.
Qed.

Lemma obj_set_NoDup {A} (o : list (string * A)) (k : string) (v : A) :
  NoDup (map fst o) → NoDup (map fst (obj_set o k v)).
Proof.
  induction o as [|[k0 v0] o IH]; simpl; intros Hnd.
  - apply NoDup_singleton.
  - destruct (String.eqb_spec k0 k) as [->|Hne]; simpl; [exact Hnd|].
    apply NoDup_cons in Hnd as [Hnotin Hnd']. apply NoDup_cons.
    split; [|apply IH, Hnd'].
    rewrite list_elem_of_In, obj_set_keys. rewrite list_elem_of_In in Hnotin.
    intros [->|H]; [apply Hne; reflexivity | apply Hnotin, H].
Qed.

Import ReduceReference.

Lemma distinct_NoDup (l : list string) : distinct l = true ↔ NoDup l.
Proof.
  induction l as [|k l IH]; simpl.
  - split; [constructor | reflexivity].
  - rewrite andb_true_iff, negb_true_iff, IH, NoDup_cons, list_elem_of_In.
    split; intros [Hk Hl]; (split; [|exact Hl]).
    + intros Hin. assert (existsb (String.eqb k) l = true) as Hex; [|congruence].
      apply existsb_exists. exists k. split; [exact Hin | apply String.eqb_refl].
    + destruct (existsb (String.eqb k) l) eqn:Hex; [|reflexivity].
      apply existsb_exists in Hex as [x [Hin Hx]].
      apply String.eqb_eq in Hx as ->. contradiction.
Qed.

Lemma wf_obj kvs :
  wf (JObj kvs) = true ↔ NoDup (map fst kvs) ∧ ∀ kv, In kv kvs → wf (snd kv) = true.
Proof.
  simpl. rewrite andb_true_iff, distinct_NoDup, forallb_forall.
  split; intros [Hnd Hall]; (split; [exact Hnd|]).
  - intros [k v] Hin. exact (Hall (k, v) Hin).
  - intros [k v] Hin. exact (Hall (k, v) Hin).
Qed.

Lemma wf_arr l : wf (JArr l) = true ↔ ∀ v, In v l → wf v = true.
Proof. simpl. apply forallb_forall. Qed.

Section ReduceFacts.

Import Normalize.

Variable convertArrayToMap : list value → string → option string → result value.

Local Abbreviation reduceData := (reduceData convertArrayToMap).

Lemma reduceData_unfold n data catm :
  reduceData (S n) data catm =
  let* wrapped := find_wrapped keysToReduce data in
  match wrapped with
  | Some item => reduceData n item catm
  | None =>
      match entries_of data with
      | Some entries => reduceData n (JObj (expand_entries entries)) catm
      | None =>
          match data with
          | JArr l =>
              match catm_keyName catm with
              | Some (k, prefix) =>
                  let* ret := convertArrayToMap l k prefix in
                  reduceData n ret catm
              | None =>
                  let* ret := mapM (λ i, reduceData n i catm) l in
                  Ret (JArr ret)
              end
          | JObj kvs =>
              let* ret :=
                foldM (λ ret '(k, v),
                         let* r := reduceData n v catm in
                         Ret (obj_set ret k r)) kvs [] in
              Ret (JObj ret)
          | _ => Ret data
          end
      end
  end.
Proof. reflexivity. Qed.

Lemma find_wrapped_no_object keys data :
  data ≠ JNull → (∀ kvs, data ≠ JObj kvs) →
  Forall (λ w, all_digits w = false) keys →
  find_wrapped keys data = Ret None.
Proof.
  intros Hnull Hobj Hkeys. induction Hkeys as [|w keys Hw _ IH]; simpl; [reflexivity|].
  destruct data as [| b | n | s | l | kvs]; simpl; try exact IH.
  - contradiction.
  - rewrite (obj_get_indexed_none w _ Hw). exact IH.
  - rewrite (obj_get_indexed_none w _ Hw). exact IH.
  - exfalso. exact (Hobj kvs eq_refl).
Qed.

Lemma keysToReduce_not_digits : Forall (λ w, all_digits w = false) keysToReduce.
Proof. repeat constructor. Qed.

Lemma entries_of_no_object data :
  (∀ kvs, data ≠ JObj kvs) → entries_of data = None.
Proof.
  intros Hobj. destruct data as [| b | n | s | l | kvs]; try reflexivity.
  - unfold entries_of. simpl. rewrite obj_get_indexed_none; reflexivity.
  - exfalso. exact (Hobj kvs eq_refl).
Qed.

(** A string, a number or a boolean reduces to itself. *)
Lemma reduceData_scalar n data catm :
  is_scalar data = true → reduceData (S n) data catm = Ret data.
Proof.
  intros Hs. rewrite reduceData_unfold.
  rewrite find_wrapped_no_object;
    [| destruct data; discriminate | destruct data; discriminate
     | exact keysToReduce_not_digits].
  simpl. rewrite entries_of_no_object by (destruct data; discriminate).
  destruct data; try discriminate; reflexivity.
Qed.

Lemma reduceData_null n catm :
  reduceData (S n) JNull catm =
  Throw (TypeError "Cannot read property 'nestedStats' of null").
Proof. reflexivity. Qed.

(** On an array neither the wrapper rule nor the entries rule applies. *)
Lemma reduceData_array n l catm :
  reduceData (S n) (JArr l) catm =
  match catm_keyName catm with
  | Some (k, prefix) =>
      let* ret := convertArrayToMap l k prefix in reduceData n ret catm
  | None => let* ret := mapM (λ i, reduceData n i catm) l in Ret (JArr ret)
  end.
Proof.
  rewrite reduceData_unfold.
  rewrite find_wrapped_no_object;
    [| discriminate | discriminate | exact keysToReduce_not_digits].
  reflexivity.
Qed.

(** The wrapper rule on an object looks at the number of keys and at the
    presence of the four names only. *)
Lemma find_wrapped_obj_ret keys kvs :
  ∃ found, find_wrapped keys (JObj kvs) = Ret found.
Proof.
  induction keys as [|w keys IH]; simpl; [eauto|].
  destruct (obj_get kvs w); [destruct (Nat.eqb _ 1)|]; eauto.
Qed.

Lemma find_wrapped_obj_none keys kvs :
  find_wrapped keys (JObj kvs) = Ret None ↔
  List.length kvs ≠ 1 ∨ ∀ w, In w keys → ¬ In w (map fst kvs).
Proof.
  induction keys as [|w keys IH]; simpl.
  - split; [|reflexivity]. intros _. right. intros w [].
  - destruct (obj_get kvs w) as [it|] eqn:Hget.
    + destruct (Nat.eqb_spec (List.length kvs) 1) as [Hlen|Hlen].
      * split; [discriminate|]. intros [Hne|Hnone]; [contradiction|].
        exfalso. apply (Hnone w); [left; reflexivity|].
        apply obj_get_in in Hget. apply in_map_iff. exists (w, it). auto.
      * rewrite IH. split; intros _; left; exact Hlen.
    + rewrite IH. apply obj_get_none_iff in Hget.
      split; (intros [Hlen|Hnone]; [left; exact Hlen|right]).
      * intros w' [<-|Hin]; [exact Hget | apply Hnone, Hin].
      * intros w' Hin. apply Hnone. right. exact Hin.
Qed.

Lemma find_wrapped_obj_some keys kvs item :
  find_wrapped keys (JObj kvs) = Ret (Some item) →
  ∃ w, In w keys ∧ kvs = [(w, item)].
Proof.
  induction keys as [|w keys IH]; simpl; [discriminate|].
  destruct (obj_get kvs w) as [it|] eqn:Hget.
  - destruct (Nat.eqb_spec (List.length kvs) 1) as [Hlen|Hlen].
    + intros [= ->]. exists w. split; [left; reflexivity|].
      destruct kvs as [|[k v] [|? ?]]; try discriminate.
      simpl in Hget. destruct (String.eqb_spec k w) as [->|]; [|discriminate].
      injection Hget as ->. reflexivity.
    + intros H. destruct (IH H) as [w' [Hin Heq]]. exists w'. auto.
  - intros H. destruct (IH H) as [w' [Hin Heq]]. exists w'. auto.
Qed.

(** Transparency: a single wrapper key is looked through. *)
Lemma find_wrapped_single w v :
  In w keysToReduce → find_wrapped keysToReduce (JObj [(w, v)]) = Ret (Some v).
Proof.
  intros [<-|[<-|[<-|[<-|[]]]]]; reflexivity.
Qed.

Lemma reduceData_wrapper n w v catm :
  In w keysToReduce →
  reduceData (S n) (JObj [(w, v)]) catm = reduceData n v catm.
Proof.
  intros Hw. rewrite reduceData_unfold, (find_wrapped_single w v Hw). reflexivity.
Qed.

Lemma mapM_Forall2 {A B} (g : A → result B) l rs :
  mapM g l = Ret rs ↔ Forall2 (λ v r, g v = Ret r) l rs.
Proof.
  revert rs. induction l as [|a l IH]; intros rs; simpl.
  - split.
    + intros [= <-]. constructor.
    + intros H. inversion H. reflexivity.
  - split.
    + destruct (g a) as [b| |] eqn:Hg; simpl; try discriminate.
      destruct (mapM g l) as [bs| |]; simpl; try discriminate.
      intros [= <-]. constructor; [exact Hg | apply IH; reflexivity].
    + intros H. inversion H as [|? b ? bs Hg Hrest]; subst.
      rewrite Hg. simpl. apply IH in Hrest. rewrite Hrest. reflexivity.
Qed.

Lemma mapM_fixed {A} (g : A → result A) rs :
  (∀ r, In r rs → g r = Ret r) → mapM g rs = Ret rs.
Proof.
  intros H. apply mapM_Forall2.
  induction rs as [|r rs IH]; constructor.
  - apply H. left. reflexivity.
  - apply IH. intros r' Hr'. apply H. right. exact Hr'.
Qed.

(** The generic rule, on an object whose keys are distinct: the loop of
    assignments builds the object of the reduced values under the same
    keys. *)
Lemma foldM_generic (g : value → result value) kvs : ∀ acc,
  NoDup (map fst acc ++ map fst kvs) →
  foldM (λ ret '(k, v), let* r := g v in Ret (obj_set ret k r)) kvs acc =
  let* rs := mapM g (map snd kvs) in
  Ret (acc ++ combine (map fst kvs) rs).
Proof.
  induction kvs as [|[k v] kvs IH]; intros acc Hnd; simpl.
  - rewrite app_nil_r. reflexivity.
  - destruct (g v) as [r| |]; simpl; try reflexivity.
    assert (Hfresh : ¬ In k (map fst acc)).
    { apply NoDup_app in Hnd as (_ & Hdisj & _).
      intros Hin. apply list_elem_of_In in Hin.
      apply (Hdisj k Hin). left. }
    rewrite (obj_set_fresh acc k r Hfresh), IH.
    + destruct (mapM g (map snd kvs)); simpl; try reflexivity.
      rewrite <- app_assoc. reflexivity.
    + rewrite map_app. simpl. rewrite <- app_assoc. exact Hnd.
Qed.

Lemma reduceData_generic n kvs catm :
  NoDup (map fst kvs) →
  find_wrapped keysToReduce (JObj kvs) = Ret None →
  entries_of (JObj kvs) = None →
  reduceData (S n) (JObj kvs) catm =
  reduce_values (λ v, reduceData n v catm) kvs.
Proof.
  intros Hnd Hw He. rewrite reduceData_unfold, Hw. simpl. rewrite He.
  rewrite (foldM_generic (λ v, reduceData n v catm) kvs []) by exact Hnd.
  unfold reduce_values. destruct (mapM _ _); reflexivity.
Qed.

Lemma depth_in_arr v l : In v l → depth v < depth (JArr l).
Proof.
  intros Hin. simpl. apply Nat.lt_succ_r.
  assert (H := proj1 (list_max_le (map depth l) _) (Nat.le_refl _)).
  rewrite List.Forall_forall in H. apply H. apply in_map. exact Hin.
Qed.

Lemma depth_in_obj (kv : string * value) kvs :
  In kv kvs → depth (snd kv) < depth (JObj kvs).
Proof.
  intros Hin. simpl. apply Nat.lt_succ_r.
  assert (H := proj1 (list_max_le (map (λ '(_, v'), depth v') kvs) _) (Nat.le_refl _)).
  rewrite List.Forall_forall in H. apply H.
  apply in_map_iff. exists kv. destruct kv. auto.
Qed.

Lemma indexed_from_values {A} (l : list A) : ∀ i kv,
  In kv (indexed_from i l) → In (snd kv) l.
Proof.
  induction l as [|a l IH]; intros i kv; simpl; [tauto|].
  intros [<-|H]; [left; reflexivity | right; exact (IH _ _ H)].
Qed.

Lemma chars_scalar s v : In v (chars s) → is_scalar v = true.
Proof.
  induction s as [|c s IH]; simpl; [tauto|].
  intros [<-|H]; [reflexivity | exact (IH H)].
Qed.

Lemma is_scalar_wf v : is_scalar v = true → wf v = true.
Proof. destruct v; simpl; intros; try discriminate; reflexivity. Qed.

Lemma own_props_wf e kv :
  wf e = true → In kv (own_props e) → wf (snd kv) = true.
Proof.
  destruct e as [| b | n | s | l | kvs]; simpl; try tauto.
  - intros _ Hin. apply is_scalar_wf, (chars_scalar s).
    exact (indexed_from_values _ _ _ Hin).
  - intros Hwf Hin. apply (proj1 (forallb_forall _ _) Hwf).
    exact (indexed_from_values _ _ _ Hin).
  - intros Hwf Hin. apply andb_prop in Hwf as [_ Hall].
    assert (H := proj1 (forallb_forall _ _) Hall kv Hin). destruct kv. exact H.
Qed.

Lemma expand_entries_wf e :
  wf e = true → wf (JObj (expand_entries e)) = true.
Proof.
  intros Hwf. apply wf_obj. unfold expand_entries.
  assert (Hinv : ∀ props acc,
            (∀ kv, In kv props → wf (snd kv) = true) →
            NoDup (map fst acc) ∧ (∀ kv, In kv acc → wf (snd kv) = true) →
            let ret := fold_left
                         (λ ret '(k, v),
                            obj_set ret (remove_first "mgmt/tm/"
                                           (remove_first "https://localhost/" k)) v)
                         props acc in
            NoDup (map fst ret) ∧ (∀ kv, In kv ret → wf (snd kv) = true)).
  { induction props as [|[k v] props IH]; intros acc Hprops [Hnd Hacc]; simpl.
    - auto.
    - apply IH.
      + intros kv Hin. apply Hprops. right. exact Hin.
      + split; [apply obj_set_NoDup, Hnd|].
        intros kv Hin. apply obj_set_values in Hin as [->|Hin]; [|apply Hacc, Hin].
        apply (Hprops (k, v)). left. reflexivity. }
  apply Hinv.
  - intros kv. apply own_props_wf, Hwf.
  - split; [constructor | intros kv []].
Qed.

Lemma entries_of_obj_in kvs e :
  entries_of (JObj kvs) = Some e → In ("entries", e) kvs.
Proof.
  unfold entries_of. simpl.
  destruct (obj_get kvs "entries") as [e'|] eqn:Hget; [|discriminate].
  destruct (truthy e'); [|discriminate].
  intros [= <-]. apply obj_get_in, Hget.
Qed.

Lemma Forall2_in_r {A B} (R : A → B → Prop) l rs r :
  Forall2 R l rs → In r rs → ∃ v, In v l ∧ R v r.
Proof.
  induction 1 as [|v r' l rs HR _ IH]; simpl; [tauto|].
  intros [<-|Hin].
  - exists v. auto.
  - destruct (IH Hin) as [v' [Hv' HR']]. exists v'. auto.
Qed.

Lemma combine_fst {A B} (ks : list A) (rs : list B) :
  List.length ks = List.length rs → map fst (combine ks rs) = ks.
Proof.
  revert rs. induction ks as [|k ks IH]; intros [|r rs]; simpl; try discriminate;
    [reflexivity|]. intros [= Hlen]. rewrite IH by exact Hlen. reflexivity.
Qed.

Lemma combine_snd {A B} (ks : list A) (rs : list B) :
  List.length ks = List.length rs → map snd (combine ks rs) = rs.
Proof.
  revert rs. induction ks as [|k ks IH]; intros [|r rs]; simpl; try discriminate;
    [reflexivity|]. intros [= Hlen]. rewrite IH by exact Hlen. reflexivity.
Qed.

Lemma obj_get_combine (g : value → result value) kvs : ∀ rs w e,
  Forall2 (λ v r, g v = Ret r) (map snd kvs) rs →
  obj_get kvs w = Some e →
  ∃ e', obj_get (combine (map fst kvs) rs) w = Some e' ∧ g e = Ret e'.
Proof.
  induction kvs as [|[k v] kvs IH]; intros rs w e HF Hget; simpl in *; [discriminate|].
  inversion HF as [|? r ? rs' Hg Hrest]; subst. simpl.
  destruct (String.eqb k w).
  - injection Hget as <-. exists r. auto.
  - apply IH; assumption.
Qed.

Lemma falsy_reduces_to_itself n e e' catm :
  truthy e = false → reduceData n e catm = Ret e' → e' = e.
Proof.
  intros Hf Hred. destruct n as [|n]; [discriminate|].
  destruct e as [| b | z | s | l | kvs]; try discriminate Hf.
  - rewrite reduceData_null in Hred. discriminate Hred.
  - rewrite reduceData_scalar in Hred by reflexivity. congruence.
  - rewrite reduceData_scalar in Hred by reflexivity. congruence.
  - rewrite reduceData_scalar in Hred by reflexivity. congruence.
Qed.

(** What [util.convertArrayToMap] returns is a JavaScript object like any
    other: no key is listed twice. *)
Hypothesis convertArrayToMap_wf : ∀ l k prefix v,
  (∀ x, In x l → wf x = true) →
  convertArrayToMap l k prefix = Ret v → wf v = true.

(** A reduced tree is reduced to itself. *)
Lemma reduceData_result_stable catm : ∀ n t r,
  wf t = true → reduceData n t catm = Ret r →
  ∀ m, (depth r <= m)%nat → reduceData m r catm = Ret r.
Proof.
  induction n as [|n IHn]; intros t r Hwf Hred; [discriminate|].
  destruct t as [| b | z | s | l | kvs].
  - rewrite reduceData_null in Hred. discriminate.
  - rewrite reduceData_scalar in Hred by reflexivity. injection Hred as <-.
    intros [|m] Hm; [simpl in Hm; lia | apply reduceData_scalar; reflexivity].
  - rewrite reduceData_scalar in Hred by reflexivity. injection Hred as <-.
    intros [|m] Hm; [simpl in Hm; lia | apply reduceData_scalar; reflexivity].
  - rewrite reduceData_scalar in Hred by reflexivity. injection Hred as <-.
    intros [|m] Hm; [simpl in Hm; lia | apply reduceData_scalar; reflexivity].
  - rewrite reduceData_array in Hred.
    destruct (catm_keyName catm) as [[k prefix]|] eqn:Hcatm.
    + destruct (convertArrayToMap l k prefix) as [ret| |] eqn:Hconv;
        simpl in Hred; try discriminate.
      apply (IHn ret r); [|exact Hred].
      apply (convertArrayToMap_wf l k prefix ret); [|exact Hconv].
      apply wf_arr, Hwf.
    + destruct (mapM _ l) as [rs| |] eqn:Hmap; simpl in Hred; try discriminate.
      injection Hred as <-. apply mapM_Forall2 in Hmap.
      intros [|m] Hm; [simpl in Hm; lia|].
      rewrite reduceData_array, Hcatm.
      rewrite mapM_fixed; [reflexivity|].
      intros r Hr. destruct (Forall2_in_r _ _ _ _ Hmap Hr) as [v [Hv Hvr]].
      apply (IHn v r); [apply (proj1 (wf_arr l) Hwf), Hv | exact Hvr |].
      apply depth_in_arr in Hr. lia.
  - apply wf_obj in Hwf as [Hnd Hvals].
    rewrite reduceData_unfold in Hred.
    destruct (find_wrapped_obj_ret keysToReduce kvs) as [found Hfound].
    rewrite Hfound in Hred. simpl in Hred.
    destruct found as [item|].
    + apply find_wrapped_obj_some in Hfound as [w [_ ->]].
      apply (IHn item r); [|exact Hred].
      apply (Hvals (w, item)). left. reflexivity.
    + destruct (entries_of (JObj kvs)) as [e|] eqn:He.
      * apply (IHn (JObj (expand_entries e)) r); [|exact Hred].
        apply expand_entries_wf.
        apply (Hvals ("entries", e)), entries_of_obj_in, He.
      * rewrite (foldM_generic (λ v, reduceData n v catm) kvs []) in Hred
          by exact Hnd.
        destruct (mapM _ (map snd kvs)) as [rs| |] eqn:Hmap;
          simpl in Hred; try discriminate.
        injection Hred as <-. apply mapM_Forall2 in Hmap.
        assert (Hlen : List.length (map fst kvs) = List.length rs).
        { apply Forall2_length in Hmap.
          rewrite !length_map in *. exact Hmap. }
        assert (Hkeys := combine_fst _ _ Hlen).
        assert (Hrs := combine_snd _ _ Hlen).
        intros [|m] Hm; [simpl in Hm; lia|].
        rewrite reduceData_generic.
        -- unfold reduce_values. rewrite Hrs, Hkeys.
           rewrite mapM_fixed; [reflexivity|].
           intros r Hr. destruct (Forall2_in_r _ _ _ _ Hmap Hr) as [v [Hv Hvr]].
           apply in_map_iff in Hv as [kv [<- Hkv]].
           apply (IHn (snd kv) r); [apply Hvals, Hkv | exact Hvr |].
           rewrite <- Hrs in Hr. apply in_map_iff in Hr as [kr [<- Hkr]].
           apply depth_in_obj in Hkr. lia.
        -- rewrite Hkeys. exact Hnd.
        -- apply find_wrapped_obj_none. apply find_wrapped_obj_none in Hfound.
           rewrite Hkeys. rewrite length_combine, <- Hlen, Nat.min_id, length_map.
           exact Hfound.
        -- unfold entries_of in *. simpl in *.
           destruct (obj_get kvs "entries") as [e|] eqn:Hget.
           ++ destruct (obj_get_combine _ kvs rs "entries" e Hmap Hget)
                as [e' [Hget' He']].
              rewrite Hget'. destruct (truthy e) eqn:Ht; [discriminate|].
              rewrite (falsy_reduces_to_itself n e e' catm Ht He'), Ht.
              reflexivity.
           ++ apply obj_get_none_iff in Hget. rewrite <- Hkeys in Hget.
              apply obj_get_none_iff in Hget. rewrite Hget. reflexivity.
Qed.

(** *** Fuel

    More fuel than a run needs does not change its result. *)

Lemma mapM_congr {A B} (g g' : A → result B) l :
  (∀ x, In x l → g x ≠ OutOfFuel → g' x = g x) →
  mapM g l ≠ OutOfFuel → mapM g' l = mapM g l.
Proof.
  induction l as [|a l IH]; intros Hg Hrun; simpl in *; [reflexivity|].
  assert (Ha' : g a ≠ OutOfFuel → g' a = g a).
  { apply Hg. left. reflexivity. }
  destruct (g a) as [b| |] eqn:Ha; simpl in *.
  - rewrite Ha' by discriminate. simpl.
    rewrite IH; [reflexivity | auto |].
    intros Hl. apply Hrun. rewrite Hl. reflexivity.
  - rewrite Ha' by discriminate. reflexivity.
  - contradiction.
Qed.

Lemma foldM_congr (g g' : value → result value) kvs : ∀ acc,
  (∀ kv, In kv kvs → g (snd kv) ≠ OutOfFuel → g' (snd kv) = g (snd kv)) →
  foldM (λ ret '(k, v), let* r := g v in Ret (obj_set ret k r)) kvs acc ≠ OutOfFuel →
  foldM (λ ret '(k, v), let* r := g' v in Ret (obj_set ret k r)) kvs acc =
  foldM (λ ret '(k, v), let* r := g v in Ret (obj_set ret k r)) kvs acc.
Proof.
  induction kvs as [|[k v] kvs IH]; intros acc Hg Hrun; simpl in *; [reflexivity|].
  assert (Hv' : g v ≠ OutOfFuel → g' v = g v).
  { apply (Hg (k, v)). left. reflexivity. }
  destruct (g v) as [r| |] eqn:Hv; simpl in *.
  - rewrite Hv' by discriminate. simpl. apply IH; auto.
  - rewrite Hv' by discriminate. reflexivity.
  - contradiction.
Qed.

Lemma reduceData_fuel_S catm : ∀ n t,
  reduceData n t catm ≠ OutOfFuel →
  reduceData (S n) t catm = reduceData n t catm.
Proof.
  induction n as [|n IHn]; intros t Hrun; [contradiction|].
  rewrite (reduceData_unfold (S n)). rewrite (reduceData_unfold n) in Hrun |- *.
  destruct (find_wrapped keysToReduce t) as [[item|]| |]; cbn [bind] in Hrun |- *;
    try reflexivity; [apply IHn, Hrun|].
  destruct (entries_of t) as [e|]; [apply IHn, Hrun|].
  destruct t as [| b | z | s | l | kvs]; try reflexivity.
  - destruct (catm_keyName catm) as [[k prefix]|].
    + destruct (convertArrayToMap l k prefix) as [ret| |]; cbn [bind] in Hrun |- *;
        try reflexivity. apply IHn, Hrun.
    + rewrite (mapM_congr (λ i, reduceData n i catm) (λ i, reduceData (S n) i catm));
        [reflexivity | intros x _; apply IHn |].
      intros Hl. apply Hrun. rewrite Hl. reflexivity.
  - rewrite (foldM_congr (λ v, reduceData n v catm) (λ v, reduceData (S n) v catm));
      [reflexivity | intros kv _; apply IHn |].
    intros Hl. apply Hrun. rewrite Hl. reflexivity.
Qed.

Lemma reduceData_fuel_mono catm n m t :
  (n <= m)%nat → reduceData n t catm ≠ OutOfFuel →
  reduceData m t catm = reduceData n t catm.
Proof.
  intros Hle Hrun. induction Hle as [|m Hle IH]; [reflexivity|].
  rewrite reduceData_fuel_S; [exact IH | rewrite IH; exact Hrun].
Qed.

(** The outcome of a run does not depend on the fuel. *)
Lemma reduces_to_deterministic t catm res res' :
  reduces_to convertArrayToMap t catm res →
  reduces_to convertArrayToMap t catm res' → res = res'.
Proof.
  intros [Hres [n Hn]] [Hres' [n' Hn']].
  destruct (Nat.le_ge_cases n n') as [Hle|Hle].
  - rewrite <- Hn, <- Hn'. symmetry. apply reduceData_fuel_mono; [exact Hle|].
    rewrite Hn. exact Hres.
  - rewrite <- Hn, <- Hn'. apply reduceData_fuel_mono; [exact Hle|].
    rewrite Hn'. exact Hres'.
Qed.

(** Without array conversion every run ends: [fuel_bound] is enough fuel. *)

Lemma obj_set_in {A} (o : list (string * A)) (k : string) (v : A) :
  ∀ kv, In kv (obj_set o k v) → kv = (k, v) ∨ In kv o.
Proof.
  induction o as [|[k0 v0] o IH]; intros kv; simpl.
  - intros [<-|[]]. left. reflexivity.
  - destruct (String.eqb_spec k0 k) as [->|_]; simpl.
    + intros [<-|H]; auto.
    + intros [<-|H]; [auto|]. destruct (IH kv H); auto.
Qed.

Lemma expand_entries_in e kM v :
  In (kM, v) (expand_entries e) →
  ∃ k, In (k, v) (own_props e) ∧
       kM = remove_first "mgmt/tm/" (remove_first "https://localhost/" k).
Proof.
  unfold expand_entries.
  assert (Hgen : ∀ props acc,
            In (kM, v)
               (fold_left
                  (λ ret '(k, v'),
                     obj_set ret (remove_first "mgmt/tm/"
                                    (remove_first "https://localhost/" k)) v')
                  props acc) →
            In (kM, v) acc ∨
            ∃ k, In (k, v) props ∧
                 kM = remove_first "mgmt/tm/" (remove_first "https://localhost/" k)).
  { induction props as [|[k v'] props IH]; intros acc Hin; simpl in *; [auto|].
    destruct (IH _ Hin) as [Hacc|[k' [Hk' ->]]].
    - apply obj_set_in in Hacc as [[= -> ->]|Hacc]; [|auto].
      right. exists k. auto.
    - right. exists k'. auto. }
  intros Hin. destruct (Hgen _ _ Hin) as [[]|H]. exact H.
Qed.

Lemma all_digits_drop n : ∀ s, all_digits s = true → all_digits (drop_chars n s) = true.
Proof.
  induction n as [|n IH]; intros [|c s]; simpl; auto.
  intros H. apply andb_prop in H as [_ H]. apply IH, H.
Qed.

Lemma all_digits_remove_first p : ∀ s,
  all_digits s = true → all_digits (remove_first p s) = true.
Proof.
  induction s as [|c s IH]; intros Hs.
  - simpl. destruct (is_prefix p EmptyString); [apply all_digits_drop|]; reflexivity.
  - simpl remove_first. destruct (is_prefix p (String c s)).
    + apply all_digits_drop, Hs.
    + simpl in *. apply andb_prop in Hs as [Hc Hs]. rewrite Hc. apply IH, Hs.
Qed.

Lemma indexed_from_digits {A} (l : list A) : ∀ i k v,
  In (k, v) (indexed_from i l) → all_digits k = true.
Proof.
  induction l as [|a l IH]; intros i k v; simpl; [tauto|].
  intros [[= <- _]|H]; [apply all_digits_uint | exact (IH _ _ _ H)].
Qed.

Lemma fuel_bound_pos v : (1 <= fuel_bound v)%nat.
Proof. destruct v; simpl; lia. Qed.

Lemma fuel_bound_in_arr v l : In v l → (fuel_bound v < fuel_bound (JArr l))%nat.
Proof.
  intros Hin. simpl. apply Nat.lt_succ_r.
  assert (H := proj1 (list_max_le (map fuel_bound l) _) (Nat.le_refl _)).
  rewrite List.Forall_forall in H. apply H. apply in_map. exact Hin.
Qed.

Lemma fuel_bound_in_obj k v kvs :
  In (k, v) kvs →
  ((if String.eqb k "entries" then S (fuel_bound v) else fuel_bound v)
   < fuel_bound (JObj kvs))%nat.
Proof.
  intros Hin. simpl fuel_bound. apply Nat.lt_succ_r.
  assert (H := proj1 (list_max_le
                        (map (λ '(k, v'),
                                if String.eqb k "entries" then S (fuel_bound v')
                                else fuel_bound v') kvs) _) (Nat.le_refl _)).
  rewrite List.Forall_forall in H.
  apply (H (if String.eqb k "entries" then S (fuel_bound v) else fuel_bound v)).
  apply in_map_iff. exists (k, v). auto.
Qed.

Lemma fuel_bound_value_in_obj k v kvs :
  In (k, v) kvs → (fuel_bound v < fuel_bound (JObj kvs))%nat.
Proof.
  intros Hin. apply fuel_bound_in_obj in Hin.
  destruct (String.eqb k "entries"); lia.
Qed.

Lemma fuel_bound_expand e :
  (fuel_bound (JObj (expand_entries e)) <= S (fuel_bound e))%nat.
Proof.
  simpl fuel_bound. apply le_n_S. apply list_max_le, List.Forall_forall.
  intros x Hx. apply in_map_iff in Hx as [[kM v] [<- Hin]].
  apply expand_entries_in in Hin as [k [Hk ->]].
  destruct e as [| b | z | s | l | kvs]; simpl in Hk; try contradiction.
  - assert (Hd := indexed_from_digits _ _ _ _ Hk).
    apply (all_digits_remove_first "https://localhost/") in Hd.
    apply (all_digits_remove_first "mgmt/tm/") in Hd.
    destruct (String.eqb_spec
                (remove_first "mgmt/tm/" (remove_first "https://localhost/" k))
                "entries") as [Heq|_].
    + rewrite Heq in Hd. discriminate Hd.
    + apply indexed_from_values in Hk. apply chars_scalar in Hk.
      destruct v; try discriminate; simpl; lia.
  - apply indexed_from_values, fuel_bound_in_arr in Hk. simpl in Hk.
    destruct (String.eqb _ "entries"); simpl; lia.
  - apply fuel_bound_value_in_obj in Hk.
    destruct (String.eqb _ "entries"); lia.
Qed.

Lemma mapM_ends {A B} (g : A → result B) l :
  (∀ x, In x l → g x ≠ OutOfFuel) → mapM g l ≠ OutOfFuel.
Proof.
  induction l as [|a l IH]; intros Hg; simpl; [discriminate|].
  assert (Ha := Hg a (or_introl eq_refl)).
  destruct (g a); simpl; try discriminate; [|contradiction].
  assert (Hl := IH (λ x Hx, Hg x (or_intror Hx))).
  destruct (mapM g l); simpl; try discriminate. contradiction.
Qed.

Lemma foldM_ends (g : value → result value) kvs : ∀ acc,
  (∀ kv, In kv kvs → g (snd kv) ≠ OutOfFuel) →
  foldM (λ ret '(k, v), let* r := g v in Ret (obj_set ret k r)) kvs acc ≠ OutOfFuel.
Proof.
  induction kvs as [|[k v] kvs IH]; intros acc Hg; simpl; [discriminate|].
  assert (Hv := Hg (k, v) (or_introl eq_refl)). simpl in Hv.
  destruct (g v); simpl; try discriminate; [|contradiction].
  apply IH. intros kv Hkv. apply Hg. right. exact Hkv.
Qed.

Lemma reduceData_ends catm :
  catm_keyName catm = None →
  ∀ n t, (fuel_bound t <= n)%nat → reduceData n t catm ≠ OutOfFuel.
Proof.
  intros Hcatm. induction n as [|n IHn]; intros t Hn.
  - assert (H := fuel_bound_pos t). lia.
  - destruct t as [| b | z | s | l | kvs].
    + rewrite reduceData_null. discriminate.
    + rewrite reduceData_scalar by reflexivity. discriminate.
    + rewrite reduceData_scalar by reflexivity. discriminate.
    + rewrite reduceData_scalar by reflexivity. discriminate.
    + rewrite reduceData_array, Hcatm.
      assert (Hl := mapM_ends (λ i, reduceData n i catm) l).
      destruct (mapM _ l); simpl; try discriminate.
      exfalso. apply Hl; [|reflexivity]. intros x Hx. apply IHn.
      apply fuel_bound_in_arr in Hx. lia.
    + rewrite reduceData_unfold.
      destruct (find_wrapped_obj_ret keysToReduce kvs) as [found Hfound].
      rewrite Hfound. cbn [bind]. destruct found as [item|].
      * apply find_wrapped_obj_some in Hfound as [w [_ ->]].
        apply IHn.
        assert (H := fuel_bound_value_in_obj w item [(w, item)] (or_introl eq_refl)).
        lia.
      * destruct (entries_of (JObj kvs)) as [e|] eqn:He.
        -- apply IHn. apply entries_of_obj_in, fuel_bound_in_obj in He.
           simpl String.eqb in He. cbv iota in He.
           assert (H := fuel_bound_expand e). lia.
        -- assert (Hl := foldM_ends (λ v, reduceData n v catm) kvs []).
           destruct (foldM _ kvs []); simpl; try discriminate.
           exfalso. apply Hl; [|reflexivity]. intros [k v] Hkv. apply IHn.
           apply fuel_bound_value_in_obj in Hkv. simpl. lia.
Qed.

(** Without array conversion the reducer returns or throws on every tree. *)
Lemma reduceData_total catm t :
  catm_keyName catm = None →
  ∃ res, reduces_to convertArrayToMap t catm res.
Proof.
  intros Hcatm. exists (reduceData (fuel_bound t) t catm). split.
  - apply reduceData_ends; [exact Hcatm | reflexivity].
  - exists (fuel_bound t). reflexivity.
Qed.

(** C6: the tree of the end-to-end scenario reduces to
    [{"sys/x/0.0/stats": "5"}], whatever the options, as soon as the fuel
    covers its seven nested calls; the key of the entry loses
    ["https://localhost/"] and ["mgmt/tm/"]. *)
Theorem reduceData_end_to_end :
  (∀ n catm,
     reduceData (7 + n) raw_stat_tree catm =
     Ret (JObj [("sys/x/0.0/stats", JStr "5")])) ∧
  (∀ v,
     expand_entries (JObj [("https://localhost/mgmt/tm/sys/x/0.0/stats", v)]) =
     [("sys/x/0.0/stats", v)]).
Proof. split; intros; reflexivity. Qed.

Lemma reduceData_chain n ws core catm :
  (∀ w, In w ws → In w keysToReduce) →
  reduceData (List.length ws + n) (wrap_chain ws core) catm = reduceData n core catm.
Proof.
  induction ws as [|w ws IH]; intros Hws; cbn [wrap_chain List.length Nat.add];
    [reflexivity|].
  rewrite reduceData_wrapper by (apply Hws; left; reflexivity).
  apply IH. intros w' Hw'. apply Hws. right. exact Hw'.
Qed.

(** C7: an object whose only key is one of [nestedStats], [value],
    [description], [color] reduces to the reduction of the value it wraps;
    a tree made of such objects only, around a core, reduces to the
    reduction of the core, which is the core itself when it is a string, a
    number or a boolean.  On an object with several keys the rule does not
    apply, even when a wrapper key is among them: the object is expanded by
    its [entries], or keeps all its keys with their values reduced. *)
Theorem reduceData_transparent :
  (∀ n w v catm,
     In w keysToReduce →
     reduceData (S n) (JObj [(w, v)]) catm = reduceData n v catm) ∧
  (∀ n ws core catm,
     (∀ w, In w ws → In w keysToReduce) →
     reduceData (List.length ws + n) (wrap_chain ws core) catm =
     reduceData n core catm) ∧
  (∀ n ws core catm,
     (∀ w, In w ws → In w keysToReduce) →
     is_scalar core = true →
     reduceData (List.length ws + S n) (wrap_chain ws core) catm = Ret core) ∧
  (∀ n kvs catm,
     NoDup (map fst kvs) →
     List.length kvs ≠ 1 →
     reduceData (S n) (JObj kvs) catm =
     match entries_of (JObj kvs) with
     | Some entries => reduceData n (JObj (expand_entries entries)) catm
     | None => reduce_values (λ v, reduceData n v catm) kvs
     end).
Proof.
  split; [|split; [|split]].
  - intros n w v catm Hw. apply reduceData_wrapper, Hw.
  - intros n ws core catm Hws. apply reduceData_chain, Hws.
  - intros n ws core catm Hws Hcore.
    rewrite reduceData_chain by exact Hws. apply reduceData_scalar, Hcore.
  - intros n kvs catm Hnd Hlen.
    assert (Hnone : find_wrapped keysToReduce (JObj kvs) = Ret None).
    { apply find_wrapped_obj_none. left. exact Hlen. }
    destruct (entries_of (JObj kvs)) as [e|] eqn:He.
    + rewrite reduceData_unfold, Hnone. simpl. rewrite He. reflexivity.
    + apply reduceData_generic; assumption.
Qed.

(** C9: reducing the result of a reduction changes nothing, for every
    tree, every option and every [util.convertArrayToMap] that returns
    objects: a second reduction, given fuel for the depth of the first
    result, ends like the first one; and whenever the reducer returns [r]
    on [t], it returns [r] on [r]. *)
Theorem reduceData_idempotent catm t :
  wf t = true →
  (∀ n m,
     (∀ r, reduceData n t catm = Ret r → (depth r <= m)%nat) →
     (let* r := reduceData n t catm in reduceData m r catm) = reduceData n t catm) ∧
  (∀ r,
     reduces_to convertArrayToMap t catm (Ret r) →
     reduces_to convertArrayToMap r catm (Ret r)).
Proof.
  intros Hwf. split.
  - intros n m Hm. destruct (reduceData n t catm) as [r| |] eqn:Hred; simpl;
      try reflexivity.
    apply (reduceData_result_stable catm n t r Hwf Hred). apply Hm. reflexivity.
  - intros r [_ [n Hn]]. split; [discriminate|]. exists (depth r).
    apply (reduceData_result_stable catm n t r Hwf Hn). reflexivity.
Qed.

End ReduceFacts.

Lemma util_convertArrayToMap_loop k prefix l : ∀ acc ret,
  (∀ x, In x l → ReduceReference.wf x = true) →
  foldM (λ ret i,
           let* field := get_prop i k in
           let keyName :=
             match prefix with
             | Some p => p +:+ Util.key_text field
             | None => Util.key_text field
             end in
           Ret (obj_set ret keyName i)) l acc = Ret ret →
  NoDup (map fst acc) ∧ (∀ kv, In kv acc → ReduceReference.wf (snd kv) = true) →
  NoDup (map fst ret) ∧ (∀ kv, In kv ret → ReduceReference.wf (snd kv) = true).
Proof.
  induction l as [|i l IH]; intros acc ret Hl Hrun [Hnd Hacc]; simpl in Hrun.
  - injection Hrun as <-. auto.
  - destruct (get_prop i k) as [field| |]; simpl in Hrun; try discriminate.
    apply (IH _ _ (λ x Hx, Hl x (or_intror Hx)) Hrun).
    split; [apply obj_set_NoDup, Hnd|].
    intros kv Hin. apply obj_set_values in Hin as [->|Hin]; [|apply Hacc, Hin].
    apply Hl. left. reflexivity.
Qed.

Lemma util_convertArrayToMap_wf l k prefix v :
  (∀ x, In x l → ReduceReference.wf x = true) →
  Util.convertArrayToMap l k prefix = Ret v → ReduceReference.wf v = true.
Proof.
  intros Hl. unfold Util.convertArrayToMap.
  destruct (foldM _ l []) as [ret| |] eqn:Hrun; simpl; try discriminate.
  intros [= <-]. apply wf_obj.
  apply (util_convertArrayToMap_loop k prefix l [] ret Hl Hrun).
  split; [constructor | intros kv []].
Qed.

Lemma reduceData_transparent_witness :
  Normalize.reduceData Util.convertArrayToMap 4
    (JObj [("nestedStats", JObj [("value", JObj [("description", JStr "5")])])]) None
  = Ret (JStr "5").
Proof.
  apply (proj1 (proj2 (proj2 (reduceData_transparent Util.convertArrayToMap)))
           0 ["nestedStats"; "value"; "description"] (JStr "5") None).
  - intros w [<-|[<-|[<-|[]]]]; simpl; auto.
  - reflexivity.
Defined.

Lemma reduceData_idempotent_witness :
  (let* r := Normalize.reduceData Util.convertArrayToMap 5 pools pools_by_name in
   Normalize.reduceData Util.convertArrayToMap 3 r pools_by_name)
  = Normalize.reduceData Util.convertArrayToMap 5 pools pools_by_name.
Proof.
  apply (proj1 (reduceData_idempotent Util.convertArrayToMap
                  util_convertArrayToMap_wf pools_by_name pools eq_refl) 5 3).
  intros r Hr. vm_compute in Hr. injection Hr as <-. vm_compute. lia.
Defined.

(** ** Normalization facade *)

Section FacadeFacts.

Import Normalize FacadeReference.

Variable regex : Type.
Variable js_match : string → regex → option (list (option string)).
Variable convertArrayToMap : list value → string → option string → result value.
Variable filterDataByKeys : value → list string → result value.
Variable normalizeUtil : string → option (list (string * value) → result value).
Variable STATS_KEY_SEP : string.

Local Abbreviation normalizeData :=
  (normalizeData regex js_match convertArrayToMap filterDataByKeys normalizeUtil
                 STATS_KEY_SEP).
Local Abbreviation normalizeStats :=
  (normalizeStats regex js_match convertArrayToMap filterDataByKeys normalizeUtil
                  STATS_KEY_SEP).

Lemma run_stages_cons (s : stage) stages data :
  run_stages (s :: stages) data = let* v := s data in run_stages stages v.
Proof. reflexivity. Qed.

Lemma run_stages_optional {A} (o : option A) (f : A → stage) stages data :
  run_stages (optional o f ++ stages) data =
  let* v := match o with Some a => f a data | None => Ret data end in
  run_stages stages v.
Proof. destruct o; reflexivity. Qed.

(** C8: [normalizeData] runs the reducer with [convertArrayToMap], then the
    key descent, the filter, the renaming and the custom function, in this
    order, each of the four exactly when its option is given (the options
    are tested as JavaScript tests them: an empty key path is not given);
    an exception of a stage ends the run.  Without any of the four options
    the result is that of the reducer. *)
Theorem normalizeData_fixed_order :
  (∀ fuel data o, normalizeData fuel data o = normalizeStats fuel data o) ∧
  (∀ fuel data catm,
     normalizeData fuel data
       {| o_key := None; o_filterByKeys := None; o_renameKeysByPattern := None;
          o_convertArrayToMap := catm; o_runCustomFunction := None |}
     = reduceData convertArrayToMap fuel data catm).
Proof.
  split.
  - intros fuel data o.
    unfold Normalize.normalizeData, FacadeReference.normalizeStats.
    cbn [app]. rewrite run_stages_cons.
    destruct (reduceData convertArrayToMap fuel data (o_convertArrayToMap o))
      as [r0| |]; simpl bind; try reflexivity.
    rewrite run_stages_optional. unfold given_key.
    assert (Hkey :
      match o_key o with
      | Some key =>
          if String.eqb key EmptyString then Ret r0
          else getDataByKey STATS_KEY_SEP r0 key
      | None => Ret r0
      end =
      match
        match o_key o with
        | Some k => if String.eqb k EmptyString then None else Some k
        | None => None
        end
      with
      | Some a => getDataByKey STATS_KEY_SEP r0 a
      | None => Ret r0
      end).
    { destruct (o_key o) as [k|]; [destruct (String.eqb k EmptyString)|]; reflexivity. }
    rewrite <- Hkey. clear Hkey.
    destruct (match o_key o with Some _ => _ | None => _ end) as [r1| |];
      simpl bind; try reflexivity.
    rewrite run_stages_optional.
    destruct (match o_filterByKeys o with Some _ => _ | None => _ end) as [r2| |];
      simpl bind; try reflexivity.
    rewrite run_stages_optional.
    destruct (match o_renameKeysByPattern o with Some _ => _ | None => _ end)
      as [r3| |]; simpl bind; try reflexivity.
    rewrite <- (app_nil_r (optional (o_runCustomFunction o) _)).
    rewrite run_stages_optional.
    destruct (o_runCustomFunction o) as [rcf|]; simpl.
    + destruct (runCustomFunction normalizeUtil r3 (name rcf) (args rcf));
        reflexivity.
    + reflexivity.
  - intros fuel data catm. unfold Normalize.normalizeData. simpl.
    destruct (reduceData convertArrayToMap fuel data catm); reflexivity.
Qed.

End FacadeFacts.

(** ** System poller *)

Section PollerFacts.

Import Poller.

Lemma stop_fold_lookup (st0 : state) (m : gmap string nat) (k : string) :
  pollerIDs (map_fold (λ k id st', delete_pollerID k (util_stop id st')) st0 m) !! k =
  match m !! k with
  | Some _ => None
  | None => pollerIDs st0 !! k
  end.
Proof.
  induction m as [|i x m Hi Hfold IH] using map_first_key_ind.
  - rewrite map_fold_empty. reflexivity.
  - rewrite map_fold_insert_first_key by assumption. simpl.
    destruct (decide (i = k)) as [->|Hne].
    + rewrite lookup_delete_eq, lookup_insert_eq. reflexivity.
    + rewrite lookup_delete_ne, lookup_insert_ne by exact Hne. exact IH.
Qed.

(** Without any poller in the configuration the registry is emptied. *)
Lemma stop_all_registry (st : state) : pollerIDs (stop_all st) = ∅.
Proof.
  apply map_eq. intros k. unfold stop_all.
  rewrite stop_fold_lookup, lookup_empty. simpl.
  destruct (pollerIDs st !! k); reflexivity.
Qed.

Lemma each_poller_other st k cfg k' :
  k ≠ k' → pollerIDs (each_poller st k cfg) !! k' = pollerIDs st !! k'.
Proof.
  intros Hne. unfold each_poller.
  destruct (enable cfg) as [[|]|]; destruct (pollerIDs st !! k); simpl;
    rewrite ?lookup_insert_ne, ?lookup_delete_ne by exact Hne; reflexivity.
Qed.

Lemma each_poller_live st k cfg id :
  id ∈ live st → pollerIDs st !! k ≠ Some id → id ∈ live (each_poller st k cfg).
Proof.
  intros Hlive Hid. unfold each_poller.
  destruct (pollerIDs st !! k) as [id'|].
  - assert (id ≠ id') by congruence.
    destruct (enable cfg) as [[|]|]; simpl; set_solver.
  - destruct (enable cfg) as [[|]|]; simpl; set_solver.
Qed.

Lemma each_poller_own st k cfg id :
  (id < next_id st)%nat → pollerIDs st !! k ≠ Some id →
  pollerIDs (each_poller st k cfg) !! k ≠ Some id.
Proof.
  intros Hnext Hid. unfold each_poller.
  destruct (pollerIDs st !! k) as [id'|] eqn:Hk.
  - destruct (enable cfg) as [[|]|]; simpl;
      rewrite ?lookup_insert_eq, ?lookup_delete_eq;
      first [discriminate | intros [= Heq]; lia].
  - destruct (enable cfg) as [[|]|]; simpl;
      rewrite ?lookup_insert_eq, ?Hk;
      first [discriminate | intros [= Heq]; lia].
Qed.

(** A poller that the snapshot does not name is left as it is: still
    registered, its timer still armed. *)
Lemma on_change_ignores_unnamed pollers : ∀ st k id,
  ¬ In k (map fst pollers) →
  pollerIDs st !! k = Some id →
  id ∈ live st →
  (∀ k', k' ≠ k → pollerIDs st !! k' ≠ Some id) →
  (id < next_id st)%nat →
  active k (on_change (Some pollers) st).
Proof.
  unfold on_change.
  induction pollers as [|[k0 cfg] pollers IH]; intros st k id Hk Hreg Hlive Hinj Hnext;
    simpl in *.
  - exists id. auto.
  - assert (Hne : k0 ≠ k) by tauto.
    assert (Hnext' : (id < next_id (each_poller st k0 cfg))%nat).
    { unfold each_poller.
      destruct (enable cfg) as [[|]|]; destruct (pollerIDs st !! k0); simpl; lia. }
    apply (IH (each_poller st k0 cfg) k id); try assumption.
    + tauto.
    + rewrite each_poller_other by exact Hne. exact Hreg.
    + apply each_poller_live; [exact Hlive | apply Hinj, Hne].
    + intros k' Hk'. destruct (decide (k0 = k')) as [<-|Hne'].
      * apply each_poller_own; [exact Hnext | apply Hinj, Hne].
      * rewrite each_poller_other by exact Hne'. apply Hinj, Hk'.
Qed.

Lemma on_change_other pollers : ∀ st k,
  ¬ In k (map fst pollers) →
  pollerIDs (on_change (Some pollers) st) !! k = pollerIDs st !! k.
Proof.
  unfold on_change.
  induction pollers as [|[k0 cfg] pollers IH]; intros st k Hk; simpl in *;
    [reflexivity|].
  rewrite IH by tauto. apply each_poller_other. tauto.
Qed.

(** The part of the reconciliation that the handler does carry out: a
    poller that the snapshot disables is taken out of the registry, and
    without any poller in the configuration no job stays active. *)
Lemma on_change_disabled pollers : ∀ st k cfg,
  NoDup (map fst pollers) →
  In (k, cfg) pollers → enable cfg = Some false →
  ¬ active k (on_change (Some pollers) st).
Proof.
  intros st k cfg Hnd Hin Hoff [id [Hreg _]]. revert st Hreg.
  induction pollers as [|[k0 cfg0] pollers IH]; intros st Hreg; simpl in *;
    [contradiction|].
  apply NoDup_cons in Hnd as [Hk0 Hnd].
  destruct Hin as [[= -> ->]|Hin].
  - change (fold_left _ pollers ?s) with (on_change (Some pollers) s) in Hreg.
    rewrite on_change_other in Hreg
      by (intros H; apply Hk0, list_elem_of_In, H).
    unfold each_poller in Hreg. rewrite Hoff in Hreg.
    destruct (pollerIDs st !! k) eqn:Hk; simpl in Hreg.
    + rewrite lookup_delete_eq in Hreg. discriminate.
    + congruence.
  - exact (IH Hnd Hin _ Hreg).
Qed.

Lemma on_change_none st k : ¬ active k (on_change None st).
Proof.
  intros [id [Hreg _]]. simpl in Hreg.
  rewrite stop_all_registry, lookup_empty in Hreg. discriminate.
Qed.

End PollerFacts.

(** C2 fails on the code: the change handler walks over the pollers of the
    snapshot only.  Poller [A], removed from the configuration that still
    declares [B], stays in the registry with its timer armed. *)
Theorem on_change_leaves_removed_poller_running :
  Poller.wanted "A" snapshot_with_B = false ∧
  Poller.active "A" (Poller.on_change snapshot_with_B registry_with_A).
Proof.
  split; [reflexivity|].
  apply (on_change_ignores_unnamed _ registry_with_A "A" 0).
  - simpl. intros [H|[]]. discriminate H.
  - reflexivity.
  - simpl. set_solver.
  - intros k' Hk'. simpl. rewrite lookup_singleton_ne by congruence. discriminate.
  - simpl. lia.
Qed.

(** ** Event listener *)

Section ListenerFacts.

Import Listener.

(** What [createServer] or [listen] throw at once is caught and logged. *)
Lemma start_logs_synchronous_errors rt port lg :
  (createServer_error rt ≠ None ∨ ∃ e, listen_result rt = ThrowsSync e) →
  ∃ msg, start_and_run rt port lg = Continues (lg ++ [msg]).
Proof.
  unfold start_and_run, start, try_block.
  intros [Hcreate|[e He]].
  - destruct (createServer_error rt) as [e|]; [|contradiction]. eauto.
  - destruct (createServer_error rt) as [e'|]; [eauto|].
    rewrite He. simpl. eauto.
Qed.

(** With the port bound the listener runs on. *)
Lemma start_bound port lg :
  start_and_run {| createServer_error := None; listen_result := Bound |} port lg
  = Continues lg.
Proof. reflexivity. Qed.

End ListenerFacts.

(** C3 fails on the code: a bind error arrives as an ['error'] event after
    [start] has left its [try] block; the listener registered for it throws
    the error again, nothing is logged, and the exception is uncaught. *)
Theorem start_rethrows_bind_error :
  Listener.start_and_run port_in_use 6514%Z [] =
  Listener.Uncaught (Error "listen EADDRINUSE: address already in use :::6514") [].
Proof. reflexivity. Qed.

(** * Further properties

    What the code shows beyond the statements above. *)

(** ** Event classifier *)

Section EventExtras.

Import Event Reference Shapes.

Lemma remove_all_insert (c : ascii) (a b : string) :
  remove_all c (a +:+ String c b) = remove_all c (a +:+ b).
Proof.
  induction a as [|x a IH]; simpl.
  - rewrite Ascii.eqb_refl. reflexivity.
  - rewrite IH. reflexivity.
Qed.

(** A newline does not end an event: the text after it continues the last
    segment of the text before it. *)
Theorem formatAsJson_newline_joins (a b : string) (lg : log) :
  normalizeEvent (a +:+ String LF b) lg = normalizeEvent (a +:+ b) lg.
Proof.
  unfold normalizeEvent, formatAsJson, try_block.
  rewrite remove_all_insert. reflexivity.
Qed.

Lemma obj_get_set {A} (o : list (string * A)) (k k' : string) (v : A) :
  obj_get (obj_set o k v) k' = if String.eqb k k' then Some v else obj_get o k'.
Proof.
  induction o as [|[k0 v0] o IH]; simpl.
  - destruct (String.eqb k k'); reflexivity.
  - destruct (String.eqb_spec k0 k) as [->|Hne]; simpl.
    + destruct (String.eqb k k'); reflexivity.
    + rewrite IH. destruct (String.eqb_spec k0 k') as [->|_]; [|reflexivity].
      destruct (String.eqb_spec k k') as [->|_]; [contradiction | reflexivity].
Qed.



Lemma has_char_remove_all_same c s : has_char c (remove_all c s) = false.
Proof.
  induction s as [|a s IH]; simpl; [reflexivity|].
  destruct (Ascii.eqb a c) eqn:Ha; [exact IH|]. simpl. rewrite Ha. exact IH.
Qed.

Lemma has_char_remove_all_other d c s :
  has_char d s = false → has_char d (remove_all c s) = false.
Proof.
  induction s as [|a s IH]; simpl; [reflexivity|].
  intros H. apply orb_false_elim in H as [Ha Hs].
  destruct (Ascii.eqb a c); [exact (IH Hs)|]. simpl. rewrite Ha. exact (IH Hs).
Qed.

Lemma has_char_before_first_same c s : has_char c (before_first c s) = false.
Proof.
  induction s as [|a s IH]; simpl; [reflexivity|].
  destruct (Ascii.eqb a c) eqn:Ha; [reflexivity|]. simpl. rewrite Ha. exact IH.
Qed.

Lemma has_char_before_first_other d c s :
  has_char d s = false → has_char d (before_first c s) = false.
Proof.
  induction s as [|a s IH]; simpl; [reflexivity|].
  intros H. apply orb_false_elim in H as [Ha Hs].
  destruct (Ascii.eqb a c); [reflexivity|]. simpl. rewrite Ha. exact (IH Hs).
Qed.

Lemma has_char_after_first d c s rest :
  after_first c s = Some rest → has_char d s = false → has_char d rest = false.
Proof.
  induction s as [|a s IH]; simpl; [discriminate|].
  intros Hrest H. apply orb_false_elim in H as [Ha Hs].
  destruct (Ascii.eqb a c); [injection Hrest as <-; exact Hs | exact (IH Hrest Hs)].
Qed.

Lemma split_char_pieces c d s piece :
  In piece (js_split s (String c EmptyString)) →
  has_char c piece = false ∧ (has_char d s = false → has_char d piece = false).
Proof.
  revert piece. induction s as [|a s IH]; intros piece.
  - simpl. intros [<-|[]]. auto.
  - rewrite split_char_cons.
    destruct (Ascii.eqb a c) eqn:Ha.
    + intros [<-|Hin]; [simpl; auto|].
      destruct (IH piece Hin) as [H1 H2]. split; [exact H1|].
      simpl. intros H. apply orb_false_elim in H as [_ H]. exact (H2 H).
    + destruct (js_split s (String c EmptyString)) as [|p ps] eqn:Hsplit.
      * intros [<-|[]]. simpl. rewrite Ha. split; [reflexivity|].
        intros H. apply orb_false_elim in H as [H _]. rewrite H. reflexivity.
      * intros [<-|Hin].
        -- destruct (IH p (or_introl eq_refl)) as [H1 H2]. simpl. rewrite Ha, H1.
           split; [reflexivity|]. intros H. apply orb_false_elim in H as [Hd H].
           rewrite Hd. exact (H2 H).
        -- destruct (IH piece (or_intror Hin)) as [H1 H2]. split; [exact H1|].
           simpl. intros H. apply orb_false_elim in H as [_ H]. exact (H2 H).
Qed.

Lemma classify_segments_in segs : ∀ ret kv,
  In kv (fst (classify_segments ret segs)) →
  In kv ret ∨ ∃ seg, In seg segs ∧ classify_segment seg = Some kv.
Proof.
  induction segs as [|seg segs IH]; intros ret kv; simpl; [auto|].
  destruct (classify_segment seg) as [[k v]|] eqn:Hseg; simpl; [|auto].
  intros Hin. destruct (IH _ _ Hin) as [Hret|[seg' [Hseg' Hkv]]].
  - apply obj_set_in in Hret as [->|Hret]; [|auto].
    right. exists seg. auto.
  - right. exists seg'. auto.
Qed.

(** No key of the record contains a comma, an equals sign or a newline, and
    no value contains one of these or a double quote: such characters of a
    value are lost or cut the value short. *)
Theorem formatAsJson_fields_are_plain (line : string) (lg : log) :
  ∃ ret lg',
    normalizeEvent line lg = (Ret ret, lg') ∧
    ∀ k v, In (k, v) ret →
      (has_char "," k = false ∧ has_char "=" k = false ∧ has_char LF k = false) ∧
      (has_char "," v = false ∧ has_char "=" v = false ∧ has_char LF v = false ∧
       has_char DQUOTE v = false).
Proof.
  unfold normalizeEvent, formatAsJson, try_block.
  rewrite forEach_segment_classify.
  assert (H : ∀ k v,
            In (k, v) (fst (classify_segments [] (js_split (remove_all LF line) ","))) →
            (has_char "," k = false ∧ has_char "=" k = false ∧ has_char LF k = false) ∧
            (has_char "," v = false ∧ has_char "=" v = false ∧ has_char LF v = false ∧
             has_char DQUOTE v = false)).
  { intros k v Hin. apply classify_segments_in in Hin as [[]|[seg [Hseg Hkv]]].
    destruct (split_char_pieces "," LF _ seg Hseg) as [Hcomma Hlf].
    specialize (Hlf (has_char_remove_all_same LF line)).
    unfold classify_segment in Hkv.
    destruct (after_first "=" seg) as [rest|] eqn:Hrest; [|discriminate].
    injection Hkv as <- <-.
    assert (Hrc := has_char_after_first "," "=" seg rest Hrest Hcomma).
    assert (Hrl := has_char_after_first LF "=" seg rest Hrest Hlf).
    repeat split.
    - apply has_char_before_first_other, Hcomma.
    - apply has_char_before_first_same.
    - apply has_char_before_first_other, Hlf.
    - apply has_char_remove_all_other, has_char_before_first_other, Hrc.
    - apply has_char_remove_all_other, has_char_before_first_same.
    - apply has_char_remove_all_other, has_char_before_first_other, Hrl.
    - apply has_char_remove_all_same. }
  destruct (classify_segments [] _) as [ret [|]]; simpl in H;
    (eexists; eexists; split; [reflexivity | exact H]).
Qed.

Lemma after_first_none_iff c s :
  after_first c s = None ↔ includes s (String c EmptyString) = false.
Proof.
  split; [|apply after_first_none].
  induction s as [|a s IH]; simpl; [reflexivity|].
  rewrite (Ascii.eqb_sym c a).
  destruct (Ascii.eqb a c); [discriminate|]. exact IH.
Qed.

Lemma classify_segments_flag segs : ∀ ret,
  snd (classify_segments ret segs) =
  negb (forallb (λ seg, includes seg "=") segs).
Proof.
  induction segs as [|seg segs IH]; intros ret; simpl; [reflexivity|].
  unfold classify_segment.
  destruct (after_first "=" seg) as [rest|] eqn:Hrest.
  - rewrite IH.
    destruct (includes seg "=") eqn:Hinc; [reflexivity|].
    apply (after_first_none_iff "=" seg) in Hinc. congruence.
  - apply (after_first_none_iff "=" seg) in Hrest.
    change "="%string with (String "="%char EmptyString).
    rewrite Hrest. reflexivity.
Qed.

(** The log is left as it is exactly when every segment of the line holds an
    equals sign; otherwise it receives one entry, however many segments are
    malformed. *)
Theorem formatAsJson_logs_once (line : string) (lg : log) :
  snd (normalizeEvent line lg) =
  if forallb (λ seg, includes seg "=") (js_split (remove_all LF line) ",")
  then lg
  else lg ++ ["formatAsJson error: TypeError: Cannot read property 'replace' of undefined"].
Proof.
  unfold normalizeEvent, formatAsJson, try_block.
  rewrite forEach_segment_classify.
  assert (H := classify_segments_flag (js_split (remove_all LF line) ",") []).
  destruct (classify_segments [] _) as [ret flag]. simpl in H. subst flag.
  destruct (forallb _ _); reflexivity.
Qed.

End EventExtras.

(** ** Key descent *)

Section DescentExtras.

Import Normalize Shapes.

Variable STATS_KEY_SEP : string.

Local Abbreviation getDataByKey := (getDataByKey STATS_KEY_SEP).

Lemma split_go_nonempty sep : ∀ s skip, split_go sep skip s ≠ [].
Proof.
  induction s as [|c s IH]; intros skip; simpl; [discriminate|].
  destruct skip as [|k]; [|apply IH].
  destruct (is_prefix sep (String c s)); [discriminate|].
  destruct (split_go sep 0 s); discriminate.
Qed.

Lemma is_prefix_append p s : is_prefix p (p +:+ s) = true.
Proof.
  induction p as [|c p IH]; [reflexivity|].
  change (String c p +:+ s) with (String c (p +:+ s)). cbn [is_prefix].
  rewrite Ascii.eqb_refl. exact IH.
Qed.

Lemma split_go_skip sep : ∀ s1 s2,
  split_go sep (String.length s1) (s1 +:+ s2) = split_go sep 0 s2.
Proof.
  induction s1 as [|c s1 IH]; intros s2.
  - reflexivity.
  - change (String c s1 +:+ s2) with (String c (s1 +:+ s2)).
    cbn [String.length split_go]. apply IH.
Qed.

(** A text in which the separator cannot begin is one piece. *)
Lemma split_go_head c0 sep' : ∀ a s,
  has_char c0 a = false →
  split_go (String c0 sep') 0 (a +:+ s) =
  match split_go (String c0 sep') 0 s with
  | piece :: rest => (a +:+ piece) :: rest
  | [] => []
  end.
Proof.
  induction a as [|c a IH]; intros s Ha.
  - change (EmptyString +:+ s) with s.
    destruct (split_go (String c0 sep') 0 s) as [|piece rest]; reflexivity.
  - simpl in Ha. apply orb_false_elim in Ha as [Hc Ha].
    change (String c a +:+ s) with (String c (a +:+ s)).
    cbn [split_go is_prefix].
    rewrite (Ascii.eqb_sym c0 c), Hc, (IH s Ha).
    destruct (split_go (String c0 sep') 0 s) as [|piece rest] eqn:Hs;
      [exfalso; exact (split_go_nonempty _ _ _ Hs) | reflexivity].
Qed.

Lemma js_split_first c0 sep' a b :
  has_char c0 a = false →
  js_split (a +:+ String c0 sep' +:+ b) (String c0 sep') =
  a :: js_split b (String c0 sep').
Proof.
  intros Ha. unfold js_split. rewrite (split_go_head c0 sep' a _ Ha).
  assert (Hsep : split_go (String c0 sep') 0 (String c0 sep' +:+ b) =
                 EmptyString :: split_go (String c0 sep') 0 b).
  { change (String c0 sep' +:+ b) with (String c0 (sep' +:+ b)).
    cbn [split_go].
    change (String c0 (sep' +:+ b)) with (String c0 sep' +:+ b).
    rewrite (is_prefix_append (String c0 sep') b).
    cbn [String.length Nat.sub]. rewrite Nat.sub_0_r, split_go_skip. reflexivity. }
  rewrite Hsep.
  replace (a +:+ EmptyString) with a; [reflexivity|].
  clear. induction a as [|c a IH]; [reflexivity|].
  change (String c a +:+ EmptyString) with (String c (a +:+ EmptyString)).
  f_equal. exact IH.
Qed.

(** Descending along a path is descending by its first name, then along the
    rest of the path. *)
Theorem getDataByKey_descends_stepwise c0 sep' (a b : string) (data : value) :
  STATS_KEY_SEP = String c0 sep' →
  has_char c0 a = false →
  getDataByKey data (a +:+ STATS_KEY_SEP +:+ b) =
  let* child := getDataByKey_step data a in getDataByKey child b.
Proof.
  intros Hsep Ha. unfold Normalize.getDataByKey. rewrite Hsep.
  rewrite (js_split_first c0 sep' a b Ha). reflexivity.
Qed.



(** Below a string, a number or a boolean there is nothing: every path gives
    "missing key", also when the path is empty. *)
Theorem getDataByKey_leaf (data : value) (key : string) :
  ReduceReference.is_scalar data = true →
  getDataByKey data key = Ret (JStr "missing key").
Proof.
  intros Hs. unfold Normalize.getDataByKey, js_split.
  assert (Hne := split_go_nonempty STATS_KEY_SEP key 0).
  destruct (split_go STATS_KEY_SEP 0 key) as [|i keys]; [contradiction|]. clear Hne.
  simpl. assert (Hfirst : getDataByKey_step data i = Ret (JStr "missing key")).
  { destruct data; try discriminate; reflexivity. }
  rewrite Hfirst. simpl. clear.
  induction keys as [|j keys IH]; simpl; [reflexivity | exact IH].
Qed.

End DescentExtras.

Lemma getDataByKey_descends_stepwise_witness :
  Normalize.getDataByKey "::" (JObj [("a", JObj [("b", JNum 1)])]) ("a" +:+ "::" +:+ "b")
  = let* child := Normalize.getDataByKey_step (JObj [("a", JObj [("b", JNum 1)])]) "a" in
    Normalize.getDataByKey "::" child "b".
Proof.
  apply (getDataByKey_descends_stepwise "::" ":"%char ":" "a" "b"); reflexivity.
Defined.


Lemma getDataByKey_leaf_witness :
  Normalize.getDataByKey "::" (JNum 5) "a" = Ret (JStr "missing key").
Proof. apply (getDataByKey_leaf "::"). reflexivity. Defined.

(** ** Custom functions *)

Section CustomFunctionExtras.

Import Normalize.

Variable normalizeUtil : string → option (list (string * value) → result value).

Local Abbreviation runCustomFunction := (runCustomFunction normalizeUtil).

Lemma reserved_argument_stops (oa : list (string * value)) :
  ∀ args : list (string * value),
  In "data" (map fst oa) →
  foldM (λ args '(k, v),
           if String.eqb k "data"
           then Throw (Error "Named argument (data) is not allowed")
           else Ret (obj_set args k v)) oa args
  = Throw (Error "Named argument (data) is not allowed").
Proof.
  induction oa as [|[k v] oa IH]; intros args Hin; simpl in *; [contradiction|].
  destruct (String.eqb_spec k "data") as [->|Hne]; [reflexivity|].
  simpl. apply IH. destruct Hin as [Heq|Hin]; [contradiction | exact Hin].
Qed.

(** An argument named [data] is refused before anything is looked up or
    called: the error is the same whether or not the function exists. *)
Theorem runCustomFunction_reserved_argument data func oa :
  In "data" (map fst oa) →
  runCustomFunction data func (Some oa)
  = Throw (Error "Named argument (data) is not allowed").
Proof.
  intros Hin. unfold Normalize.runCustomFunction.
  rewrite (reserved_argument_stops oa _ Hin). reflexivity.
Qed.

Lemma arguments_collected (oa : list (string * value)) :
  ∀ args : list (string * value),
  ¬ In "data" (map fst oa) →
  NoDup (map fst args ++ map fst oa) →
  foldM (λ args '(k, v),
           if String.eqb k "data"
           then Throw (Error "Named argument (data) is not allowed")
           else Ret (obj_set args k v)) oa args
  = Ret (args ++ oa).
Proof.
  induction oa as [|[k v] oa IH]; intros args Hdata Hnd; simpl in *.
  - rewrite app_nil_r. reflexivity.
  - destruct (String.eqb_spec k "data") as [->|Hne]; [tauto|]. simpl.
    assert (Hfresh : ¬ In k (map fst args)).
    { apply NoDup_app in Hnd as (_ & Hdisj & _).
      intros Hin. apply list_elem_of_In in Hin. apply (Hdisj k Hin). left. }
    rewrite (obj_set_fresh args k v Hfresh), IH.
    + rewrite <- app_assoc. reflexivity.
    + tauto.
    + rewrite map_app. simpl. rewrite <- app_assoc. exact Hnd.
Qed.

(** The function is called with one object: [data] first, then the
    arguments of the configuration, and what it returns is the result. *)
Theorem runCustomFunction_passes_arguments data func f oa :
  normalizeUtil func = Some f →
  NoDup (map fst oa) →
  ¬ In "data" (map fst oa) →
  runCustomFunction data (Some func) (Some oa) =
  match f (("data", data) :: oa) with
  | Throw e => Throw (Error ("runCustomFunction failed: " +:+ exn_message e))
  | r => r
  end.
Proof.
  intros Hf Hnd Hdata. unfold Normalize.runCustomFunction.
  rewrite (arguments_collected oa [("data", data)] Hdata).
  - simpl. rewrite Hf. destruct (f _); reflexivity.
  - simpl. apply NoDup_cons. split; [|exact Hnd].
    intros Hin. apply list_elem_of_In in Hin. contradiction.
Qed.

(** Whatever goes wrong, the caller gets an [Error]: either the refusal of
    the reserved argument, or a message that begins with
    "runCustomFunction failed: ". *)
Theorem runCustomFunction_wraps_errors data func oa e :
  runCustomFunction data func oa = Throw e →
  ∃ msg, e = Error msg ∧
         (msg = "Named argument (data) is not allowed" ∨
          is_prefix "runCustomFunction failed: " msg = true).
Proof.
  unfold Normalize.runCustomFunction.
  destruct (match oa with Some _ => _ | None => _ end) as [args|e'|] eqn:Hargs;
    cbn [bind].
  - destruct (func ≫= normalizeUtil) as [f|].
    + destruct (f args) as [v|e'|]; try discriminate.
      intros [= <-]. eexists. split; [reflexivity|]. right.
      exact (is_prefix_append "runCustomFunction failed: " (exn_message e')).
    + intros [= <-]. eexists. split; [reflexivity|]. right. reflexivity.
  - intros [= <-]. destruct oa as [oa|]; [|discriminate].
    exists "Named argument (data) is not allowed". split; [|left; reflexivity].
    revert Hargs. generalize [("data", data)].
    induction oa as [|[k v] oa IH]; intros args; simpl; [discriminate|].
    destruct (String.eqb k "data"); [intros [= <-]; reflexivity|].
    simpl. apply IH.
  - discriminate.
Qed.

End CustomFunctionExtras.

Lemma runCustomFunction_passes_arguments_witness :
  Normalize.runCustomFunction
    (λ name, if String.eqb name "first" then Some (λ args, Ret (JObj args)) else None)
    (JNum 1) (Some "first") (Some [("n", JNum 2)])
  = Ret (JObj [("data", JNum 1); ("n", JNum 2)]).
Proof.
  apply (runCustomFunction_passes_arguments
           (λ name, if String.eqb name "first" then Some (λ args, Ret (JObj args)) else None)
           (JNum 1) "first" (λ args, Ret (JObj args)) [("n", JNum 2)]).
  - reflexivity.
  - apply NoDup_singleton.
  - simpl. intros [H|[]]. discriminate H.
Defined.

Lemma runCustomFunction_reserved_argument_witness :
  Normalize.runCustomFunction (λ _, None) (JNum 1) None (Some [("data", JNum 2)])
  = Throw (Error "Named argument (data) is not allowed").
Proof.
  apply (runCustomFunction_reserved_argument (λ _, None)).
  simpl. left. reflexivity.
Defined.

Lemma runCustomFunction_wraps_errors_witness :
  ∃ msg, Error "runCustomFunction failed: TypeError: normalizeUtil[options.func] is not a function"
         = Error msg ∧
         (msg = "Named argument (data) is not allowed" ∨
          is_prefix "runCustomFunction failed: " msg = true).
Proof.
  apply (runCustomFunction_wraps_errors (λ _, None) (JNum 1) (Some "nothing") None).
  reflexivity.
Defined.

(** ** Pattern renaming: errors and fixed points *)

Section RenameExtras.

Import Normalize RenameReference ReduceReference Shapes.

Variable regex : Type.
Variable js_match : string → regex → option (list (option string)).

Local Abbreviation renameKeysInData := (renameKeysInData regex js_match).
Local Abbreviation new_key := (new_key regex js_match).
Local Abbreviation applies := (applies regex js_match).

Lemma rename_loop_outcome patterns kvs :
  Forall (λ kv,
            if null_free_objects (snd kv)
            then ∃ r, renameKeysInData (snd kv) patterns = Ret r
            else renameKeysInData (snd kv) patterns =
                 Throw (TypeError "Cannot convert undefined or null to object")) kvs →
  ∀ acc,
    if forallb (λ '(_, v'), null_free_objects v') kvs
    then ∃ ret,
        foldM (λ ret '(k, v),
                 let* r := renameKeysInData v patterns in
                 Ret (obj_set ret (new_key k patterns) r)) kvs acc = Ret ret
    else foldM (λ ret '(k, v),
                  let* r := renameKeysInData v patterns in
                  Ret (obj_set ret (new_key k patterns) r)) kvs acc
         = Throw (TypeError "Cannot convert undefined or null to object").
Proof.
  induction 1 as [|[k v] kvs Hv _ IH]; intros acc; simpl in *; [eauto|].
  destruct (null_free_objects v).
  - destruct Hv as [r ->]. simpl. apply IH.
  - rewrite Hv. reflexivity.
Qed.

(** Renaming returns exactly on the trees in which no [null] is reached
    through objects; on the others it throws the [TypeError] of
    [Object.keys(null)].  A [null] inside an array is never looked at. *)
Theorem renameKeysInData_throws_on_null (t : value) patterns :
  if null_free_objects t
  then ∃ r, renameKeysInData t patterns = Ret r
  else renameKeysInData t patterns =
       Throw (TypeError "Cannot convert undefined or null to object").
Proof.
  induction t as [| b | n | s | l _ | kvs IH] using value_ind_nested;
    try (simpl; eauto; fail).
  assert (H := rename_loop_outcome patterns kvs IH []).
  simpl. destruct (forallb _ kvs).
  - destruct H as [ret ->]. simpl. eauto.
  - rewrite H. reflexivity.
Qed.

Lemma rename_loop_fixed patterns kvs :
  Forall (λ kv, renameKeysInData (snd kv) patterns = Ret (snd kv)) kvs →
  (∀ kv, In kv kvs → new_key (fst kv) patterns = fst kv) →
  ∀ acc,
    NoDup (map fst acc ++ map fst kvs) →
    foldM (λ ret '(k, v),
             let* r := renameKeysInData v patterns in
             Ret (obj_set ret (new_key k patterns) r)) kvs acc = Ret (acc ++ kvs).
Proof.
  induction 1 as [|[k v] kvs Hv _ IH]; intros Hkeys acc Hnd; simpl in *.
  - rewrite app_nil_r. reflexivity.
  - rewrite Hv. simpl.
    assert (Hk : new_key k patterns = k) by (apply (Hkeys (k, v)); left; reflexivity).
    rewrite Hk.
    assert (Hfresh : ¬ In k (map fst acc)).
    { apply NoDup_app in Hnd as (_ & Hdisj & _).
      intros Hin. apply list_elem_of_In in Hin. apply (Hdisj k Hin). left. }
    rewrite (obj_set_fresh acc k v Hfresh), IH.
    + rewrite <- app_assoc. reflexivity.
    + intros kv Hkv. apply Hkeys. right. exact Hkv.
    + rewrite map_app. simpl. rewrite <- app_assoc. exact Hnd.
Qed.

Lemma keys_under_in k v kvs k' :
  In (k, v) kvs → In k' (k :: keys_under v) → In k' (keys_under (JObj kvs)).
Proof.
  intros Hin Hk'. simpl. apply in_flat_map. exists (k, v). auto.
Qed.

(** A pattern table none of whose entries applies to a key of the tree (the
    empty table, for one) leaves the tree as it is. *)
Theorem renameKeysInData_unchanged (t : value) patterns :
  wf t = true →
  null_free_objects t = true →
  (∀ k entry, In k (keys_under t) → In entry patterns → applies k entry = false) →
  renameKeysInData t patterns = Ret t.
Proof.
  induction t as [| b | n | s | l _ | kvs IH] using value_ind_nested;
    intros Hwf Hnull Hnone; try discriminate; try reflexivity.
  apply wf_obj in Hwf as [Hnd Hvals]. simpl in Hnull.
  simpl. rewrite (rename_loop_fixed patterns kvs).
  - reflexivity.
  - rewrite List.Forall_forall in IH. apply List.Forall_forall. intros [k v] Hin.
    apply (IH (k, v) Hin).
    + apply (Hvals (k, v) Hin).
    + apply (proj1 (forallb_forall _ _) Hnull (k, v) Hin).
    + intros k' entry Hk' Hentry. apply Hnone; [|exact Hentry].
      apply (keys_under_in k v kvs k' Hin). right. exact Hk'.
  - intros [k v] Hin. simpl. rewrite new_key_last.
    unfold key_by_last_match. rewrite find_none_all; [reflexivity|].
    intros entry Hentry. apply Hnone; [|apply in_rev, Hentry].
    apply (keys_under_in k v kvs k Hin). left. reflexivity.
  - exact Hnd.
Qed.

End RenameExtras.

Lemma renameKeysInData_unchanged_witness :
  Normalize.renameKeysInData string literal_match
    (JObj [("a", JObj [("b", JArr [JNull])])]) [("x", Normalize.Plain "x")]
  = Ret (JObj [("a", JObj [("b", JArr [JNull])])]).
Proof.
  apply (renameKeysInData_unchanged string literal_match); try reflexivity.
  intros k entry Hk [<-|[]]. simpl in Hk.
  destruct Hk as [<-|[<-|[]]]; reflexivity.
Defined.

(** ** Tree reducer: what is lost, and the shape of the result *)

Section ReduceExtras.

Import Normalize ReduceReference Shapes.

Variable convertArrayToMap : list value → string → option string → result value.

Local Abbreviation reduceData := (reduceData convertArrayToMap).

Lemma entries_not_wrapper kvs e :
  obj_get kvs "entries" = Some e →
  find_wrapped keysToReduce (JObj kvs) = Ret None.
Proof.
  intros Hget. apply find_wrapped_obj_none.
  destruct (Nat.eq_dec (List.length kvs) 1) as [Hlen|Hlen]; [right | left; exact Hlen].
  destruct kvs as [|[k v] [|? ?]]; try discriminate. simpl in Hget.
  destruct (String.eqb_spec k "entries") as [->|]; [|discriminate].
  intros w Hw [Heq|[]]. simpl in Heq. subst w.
  destruct Hw as [H|[H|[H|[H|[]]]]]; discriminate H.
Qed.

(** An object with a truthy [entries] is replaced by the expansion of that
    value: whatever else the object holds has no part in the result. *)
Theorem reduceData_entries_discards_siblings n kvs e catm :
  obj_get kvs "entries" = Some e →
  truthy e = true →
  reduceData (S n) (JObj kvs) catm = reduceData n (JObj (expand_entries e)) catm.
Proof.
  intros Hget Htruthy. rewrite reduceData_unfold, (entries_not_wrapper kvs e Hget).
  cbn [bind]. unfold entries_of. simpl. rewrite Hget, Htruthy. reflexivity.
Qed.

Lemma settled_object_intro kvs :
  find_wrapped keysToReduce (JObj kvs) = Ret None →
  entries_of (JObj kvs) = None →
  settled_object kvs = true.
Proof.
  intros Hw He. unfold settled_object. apply andb_true_intro. split.
  - apply find_wrapped_obj_none in Hw as [Hlen|Hnone].
    + apply Nat.eqb_neq in Hlen. rewrite Hlen. reflexivity.
    + destruct (existsb _ kvs) eqn:Hex; [|rewrite andb_false_r; reflexivity].
      exfalso. apply existsb_exists in Hex as [[k v] [Hin Hk]].
      apply existsb_exists in Hk as [w [Hw Heq]]. apply String.eqb_eq in Heq. subst w.
      apply (Hnone k Hw). apply in_map_iff. exists (k, v). auto.
  - unfold entries_of in He. simpl in He.
    destruct (obj_get kvs "entries") as [e|]; [|reflexivity].
    destruct (truthy e); [discriminate | reflexivity].
Qed.

Lemma generic_result_settled (g : value → result value) kvs rs :
  (∀ e e', truthy e = false → g e = Ret e' → e' = e) →
  find_wrapped keysToReduce (JObj kvs) = Ret None →
  entries_of (JObj kvs) = None →
  Forall2 (λ v r, g v = Ret r) (map snd kvs) rs →
  settled_object (combine (map fst kvs) rs) = true.
Proof.
  intros Hfalsy Hw He Hmap.
  assert (Hlen : List.length (map fst kvs) = List.length rs).
  { apply Forall2_length in Hmap. rewrite !length_map in *. exact Hmap. }
  assert (Hkeys := combine_fst _ _ Hlen).
  apply settled_object_intro.
  - apply find_wrapped_obj_none. apply find_wrapped_obj_none in Hw.
    rewrite Hkeys. rewrite length_combine, <- Hlen, Nat.min_id, length_map.
    exact Hw.
  - unfold entries_of in *. simpl in *.
    destruct (obj_get kvs "entries") as [e|] eqn:Hget.
    + destruct (obj_get_combine g kvs rs "entries" e Hmap Hget) as [e' [Hget' He']].
      rewrite Hget'. destruct (truthy e) eqn:Ht; [discriminate|].
      rewrite (Hfalsy e e' Ht He'), Ht. reflexivity.
    + apply obj_get_none_iff in Hget. rewrite <- Hkeys in Hget.
      apply obj_get_none_iff in Hget. rewrite Hget. reflexivity.
Qed.

Hypothesis convertArrayToMap_wf : ∀ l k prefix v,
  (∀ x, In x l → wf x = true) →
  convertArrayToMap l k prefix = Ret v → wf v = true.

(** What the reducer returns holds no [null], and no object, at any depth,
    that has a single wrapper key or a truthy [entries]: nothing is left
    for the reducer to unwrap or expand. *)
Theorem reduceData_result_is_reduced catm : ∀ n t r,
  wf t = true → reduceData n t catm = Ret r → reduced r = true.
Proof.
  induction n as [|n IHn]; intros t r Hwf Hred; [discriminate|].
  destruct t as [| b | z | s | l | kvs].
  - rewrite reduceData_null in Hred. discriminate.
  - rewrite reduceData_scalar in Hred by reflexivity. injection Hred as <-. reflexivity.
  - rewrite reduceData_scalar in Hred by reflexivity. injection Hred as <-. reflexivity.
  - rewrite reduceData_scalar in Hred by reflexivity. injection Hred as <-. reflexivity.
  - rewrite reduceData_array in Hred.
    destruct (catm_keyName catm) as [[k prefix]|].
    + destruct (convertArrayToMap l k prefix) as [ret| |] eqn:Hconv;
        cbn [bind] in Hred; try discriminate.
      apply (IHn ret r); [|exact Hred].
      apply (convertArrayToMap_wf l k prefix ret); [apply wf_arr, Hwf | exact Hconv].
    + destruct (mapM _ l) as [rs| |] eqn:Hmap; cbn [bind] in Hred; try discriminate.
      injection Hred as <-. apply mapM_Forall2 in Hmap.
      simpl. apply forallb_forall. intros r Hr.
      destruct (Forall2_in_r _ _ _ _ Hmap Hr) as [v [Hv Hvr]].
      apply (IHn v r); [apply (proj1 (wf_arr l) Hwf), Hv | exact Hvr].
  - apply wf_obj in Hwf as [Hnd Hvals].
    rewrite reduceData_unfold in Hred.
    destruct (find_wrapped_obj_ret keysToReduce kvs) as [found Hfound].
    rewrite Hfound in Hred. cbn [bind] in Hred.
    destruct found as [item|].
    + apply find_wrapped_obj_some in Hfound as [w [_ ->]].
      apply (IHn item r); [|exact Hred].
      apply (Hvals (w, item)). left. reflexivity.
    + destruct (entries_of (JObj kvs)) as [e|] eqn:He.
      * apply (IHn (JObj (expand_entries e)) r); [|exact Hred].
        apply expand_entries_wf.
        apply (Hvals ("entries", e)), entries_of_obj_in, He.
      * rewrite (foldM_generic (λ v, reduceData n v catm) kvs []) in Hred
          by exact Hnd.
        destruct (mapM _ (map snd kvs)) as [rs| |] eqn:Hmap;
          cbn [bind] in Hred; try discriminate.
        injection Hred as <-. apply mapM_Forall2 in Hmap.
        assert (Hlen : List.length (map fst kvs) = List.length rs).
        { apply Forall2_length in Hmap. rewrite !length_map in *. exact Hmap. }
        cbn [reduced app]. apply andb_true_intro. split.
        -- apply (generic_result_settled (λ v, reduceData n v catm) kvs rs);
             try assumption.
           intros e e' Ht He'.
           exact (falsy_reduces_to_itself convertArrayToMap n e e' catm Ht He').
        -- apply forallb_forall. intros [k r] Hkr.
           assert (Hr : In r rs).
           { rewrite <- (combine_snd _ _ Hlen). apply in_map_iff. exists (k, r). auto. }
           destruct (Forall2_in_r _ _ _ _ Hmap Hr) as [v [Hv Hvr]].
           apply in_map_iff in Hv as [kv [<- Hkv]].
           apply (IHn (snd kv) r); [apply Hvals, Hkv | exact Hvr].
Qed.

Lemma foldM_generic_values (g : value → result value) kvs : ∀ acc ret,
  foldM (λ ret '(k, v), let* r := g v in Ret (obj_set ret k r)) kvs acc = Ret ret →
  ∀ kr, In kr ret →
        In kr acc ∨ ∃ kv, In kv kvs ∧ g (snd kv) = Ret (snd kr).
Proof.
  induction kvs as [|[k v] kvs IH]; intros acc ret Hrun kr Hkr; simpl in Hrun.
  - injection Hrun as <-. auto.
  - destruct (g v) as [r| |] eqn:Hv; cbn [bind] in Hrun; try discriminate.
    destruct (IH _ _ Hrun kr Hkr) as [Hacc|[kv [Hkv Hg]]].
    + apply obj_set_in in Hacc as [->|Hacc]; [|auto].
      right. exists (k, v). split; [left; reflexivity | exact Hv].
    + right. exists kv. split; [right; exact Hkv | exact Hg].
Qed.

(** With [convertArrayToMap] requested, no array is left in the result, at
    any depth, whatever [util.convertArrayToMap] returns. *)
Theorem reduceData_converts_every_array catm k prefix : ∀ n t r,
  catm_keyName catm = Some (k, prefix) →
  reduceData n t catm = Ret r → array_free r = true.
Proof.
  induction n as [|n IHn]; intros t r Hcatm Hred; [discriminate|].
  destruct t as [| b | z | s | l | kvs].
  - rewrite reduceData_null in Hred. discriminate.
  - rewrite reduceData_scalar in Hred by reflexivity. injection Hred as <-. reflexivity.
  - rewrite reduceData_scalar in Hred by reflexivity. injection Hred as <-. reflexivity.
  - rewrite reduceData_scalar in Hred by reflexivity. injection Hred as <-. reflexivity.
  - rewrite reduceData_array, Hcatm in Hred.
    destruct (convertArrayToMap l k prefix) as [ret| |];
      cbn [bind] in Hred; try discriminate.
    exact (IHn ret r Hcatm Hred).
  - rewrite reduceData_unfold in Hred.
    destruct (find_wrapped_obj_ret keysToReduce kvs) as [found Hfound].
    rewrite Hfound in Hred. cbn [bind] in Hred.
    destruct found as [item|]; [exact (IHn item r Hcatm Hred)|].
    destruct (entries_of (JObj kvs)) as [e|]; [exact (IHn _ r Hcatm Hred)|].
    destruct (foldM _ kvs []) as [ret| |] eqn:Hrun; cbn [bind] in Hred;
      try discriminate.
    injection Hred as <-. simpl. apply forallb_forall. intros [k' r'] Hkr.
    destruct (foldM_generic_values _ kvs [] ret Hrun (k', r') Hkr) as [[]|[kv [_ Hg]]].
    exact (IHn (snd kv) r' Hcatm Hg).
Qed.

Lemma mapM_throws {A B} (g : A → result B) l e :
  mapM g l = Throw e → ∃ x, In x l ∧ g x = Throw e.
Proof.
  induction l as [|a l IH]; simpl; [discriminate|].
  destruct (g a) as [b|e'|] eqn:Ha; cbn [bind]; try discriminate.
  - destruct (mapM g l) as [bs|e'|]; cbn [bind]; try discriminate.
    intros [= ->]. destruct (IH eq_refl) as [x [Hx Hg]]. exists x. auto.
  - intros [= ->]. exists a. auto.
Qed.

Lemma foldM_generic_throws (g : value → result value) kvs e : ∀ acc,
  foldM (λ ret '(k, v), let* r := g v in Ret (obj_set ret k r)) kvs acc = Throw e →
  ∃ kv, In kv kvs ∧ g (snd kv) = Throw e.
Proof.
  induction kvs as [|[k v] kvs IH]; intros acc; simpl; [discriminate|].
  destruct (g v) as [r|e'|] eqn:Hv; cbn [bind]; try discriminate.
  - intros Hrun. destruct (IH _ Hrun) as [kv [Hkv Hg]]. exists kv. auto.
  - intros [= ->]. exists (k, v). auto.
Qed.

Lemma null_free_expand e :
  null_free e = true → null_free (JObj (expand_entries e)) = true.
Proof.
  intros He. simpl. apply forallb_forall. intros [kM v] Hin.
  apply expand_entries_in in Hin as [k [Hk _]].
  destruct e as [| b | z | s | l | kvs]; simpl in Hk; try contradiction.
  - apply indexed_from_values, chars_scalar in Hk. destruct v; try discriminate; reflexivity.
  - apply indexed_from_values in Hk. exact (proj1 (forallb_forall _ _) He v Hk).
  - exact (proj1 (forallb_forall _ _) He (k, v) Hk).
Qed.

Lemma reduceData_throw_cause catm : ∀ n t e,
  catm_keyName catm = None →
  reduceData n t catm = Throw e →
  e = TypeError "Cannot read property 'nestedStats' of null" ∧ null_free t = false.
Proof.
  induction n as [|n IHn]; intros t e Hcatm Hred; [discriminate|].
  destruct t as [| b | z | s | l | kvs].
  - rewrite reduceData_null in Hred. injection Hred as <-. auto.
  - rewrite reduceData_scalar in Hred by reflexivity. discriminate.
  - rewrite reduceData_scalar in Hred by reflexivity. discriminate.
  - rewrite reduceData_scalar in Hred by reflexivity. discriminate.
  - rewrite reduceData_array, Hcatm in Hred.
    destruct (mapM _ l) as [rs|e'|] eqn:Hmap; cbn [bind] in Hred; try discriminate.
    injection Hred as ->. apply mapM_throws in Hmap as [x [Hx Hg]].
    destruct (IHn x e Hcatm Hg) as [-> Hnull]. split; [reflexivity|].
    simpl. destruct (forallb null_free l) eqn:Hall; [|reflexivity].
    rewrite (proj1 (forallb_forall _ _) Hall x Hx) in Hnull. discriminate.
  - assert (Hchild : ∀ kv, In kv kvs → null_free (snd kv) = false →
                      null_free (JObj kvs) = false).
    { intros [k v] Hin Hnull. simpl. destruct (forallb _ kvs) eqn:Hall; [|reflexivity].
      assert (H := proj1 (forallb_forall _ _) Hall (k, v) Hin). simpl in *. congruence. }
    rewrite reduceData_unfold in Hred.
    destruct (find_wrapped_obj_ret keysToReduce kvs) as [found Hfound].
    rewrite Hfound in Hred. cbn [bind] in Hred.
    destruct found as [item|].
    + apply find_wrapped_obj_some in Hfound as [w [_ ->]].
      destruct (IHn item e Hcatm Hred) as [-> Hnull]. split; [reflexivity|].
      apply (Hchild (w, item)); [left; reflexivity | exact Hnull].
    + destruct (entries_of (JObj kvs)) as [en|] eqn:He.
      * destruct (IHn _ e Hcatm Hred) as [-> Hnull]. split; [reflexivity|].
        apply (Hchild ("entries", en)); [apply entries_of_obj_in, He|].
        simpl. destruct (null_free en) eqn:Hen; [|reflexivity].
        rewrite (null_free_expand en Hen) in Hnull. discriminate.
      * destruct (foldM _ kvs []) as [ret|e'|] eqn:Hrun; cbn [bind] in Hred;
          try discriminate.
        injection Hred as ->. apply foldM_generic_throws in Hrun as [kv [Hkv Hg]].
        destruct (IHn (snd kv) e Hcatm Hg) as [-> Hnull]. split; [reflexivity|].
        exact (Hchild kv Hkv Hnull).
Qed.

(** Without array conversion the only thing the reducer throws is the
    [TypeError] of reading a property of [null], and only on a tree that
    holds a [null]. *)
Theorem reduceData_throws_only_on_null catm n t e :
  catm_keyName catm = None →
  reduceData n t catm = Throw e →
  e = TypeError "Cannot read property 'nestedStats' of null" ∧ null_free t = false.
Proof. apply reduceData_throw_cause. Qed.

(** Without array conversion the reducer returns on every tree that holds
    no [null], with the fuel [fuel_bound] gives. *)
Theorem reduceData_returns_without_null catm t :
  catm_keyName catm = None →
  null_free t = true →
  ∃ r, reduceData (fuel_bound t) t catm = Ret r.
Proof.
  intros Hcatm Hnull.
  assert (Hends := reduceData_ends convertArrayToMap catm Hcatm (fuel_bound t) t
                     (Nat.le_refl _)).
  destruct (reduceData (fuel_bound t) t catm) as [r|e|] eqn:Hred;
    [eauto | | contradiction].
  destruct (reduceData_throw_cause catm _ t e Hcatm Hred) as [_ H].
  congruence.
Qed.

Lemma expand_fold_lookup (props : list (string * value)) :
  ∀ (acc : list (string * value)) kM,
  obj_get
    (fold_left
       (λ ret '(k, v),
          obj_set ret (remove_first "mgmt/tm/" (remove_first "https://localhost/" k)) v)
       props acc) kM =
  match
    last_value
      (map (λ '(k, v),
              (remove_first "mgmt/tm/" (remove_first "https://localhost/" k), v))
           props) kM
  with
  | Some v => Some v
  | None => obj_get acc kM
  end.
Proof.
  induction props as [|[k v] props IH]; intros acc kM; simpl; [reflexivity|].
  rewrite IH, obj_get_set.
  destruct (last_value _ kM); [reflexivity|].
  destruct (String.eqb _ kM); reflexivity.
Qed.

(** When the simplified keys of several entries coincide, the expansion
    keeps one property, with the value of the last of them. *)
Theorem expand_entries_last_entry_wins (e : value) (kM : string) :
  obj_get (expand_entries e) kM =
  last_value
    (map (λ '(k, v),
            (remove_first "mgmt/tm/" (remove_first "https://localhost/" k), v))
         (own_props e)) kM.
Proof.
  unfold expand_entries. rewrite expand_fold_lookup.
  destruct (last_value _ kM); reflexivity.
Qed.

Lemma remove_first_eq p s :
  remove_first p s =
  if is_prefix p s then drop_chars (String.length p) s
  else match s with
       | EmptyString => EmptyString
       | String c s' => String c (remove_first p s')
       end.
Proof. destruct s; reflexivity. Qed.

Lemma remove_first_absent p : ∀ s, includes s p = false → remove_first p s = s.
Proof.
  induction s as [|c s IH]; intros Hinc; rewrite remove_first_eq.
  - simpl in Hinc. destruct (is_prefix p EmptyString); [discriminate | reflexivity].
  - cbn [includes] in Hinc. destruct (is_prefix p (String c s)); [discriminate|].
    rewrite (IH Hinc). reflexivity.
Qed.

Lemma drop_chars_append p : ∀ s, drop_chars (String.length p) (p +:+ s) = s.
Proof.
  induction p as [|c p IH]; intros s; [reflexivity|].
  change (String c p +:+ s) with (String c (p +:+ s)). simpl. apply IH.
Qed.

Lemma remove_first_middle c0 p' : ∀ a b,
  has_char c0 a = false →
  remove_first (String c0 p') (a +:+ String c0 p' +:+ b) = a +:+ b.
Proof.
  induction a as [|c a IH]; intros b Ha.
  - change (EmptyString +:+ String c0 p' +:+ b) with (String c0 p' +:+ b).
    rewrite remove_first_eq, is_prefix_append. apply drop_chars_append.
  - simpl in Ha. apply orb_false_elim in Ha as [Hc Ha].
    change (String c a +:+ String c0 p' +:+ b)
      with (String c (a +:+ String c0 p' +:+ b)).
    rewrite remove_first_eq. cbn [is_prefix].
    rewrite (Ascii.eqb_sym c0 c), Hc, (IH b Ha). reflexivity.
Qed.

(** How the key of an entry is simplified: the two known fragments are cut
    off the front of a device URL; a key that holds neither is kept; and a
    fragment is cut out wherever it first occurs, not only at the front. *)
Theorem expand_entries_simplifies_keys :
  (∀ rest v,
     expand_entries (JObj [("https://localhost/mgmt/tm/" +:+ rest, v)]) = [(rest, v)]) ∧
  (∀ k v,
     includes k "https://localhost/" = false →
     includes k "mgmt/tm/" = false →
     expand_entries (JObj [(k, v)]) = [(k, v)]) ∧
  (∀ a b v,
     has_char "m" a = false →
     includes (a +:+ "mgmt/tm/" +:+ b) "https://localhost/" = false →
     expand_entries (JObj [(a +:+ "mgmt/tm/" +:+ b, v)]) = [(a +:+ b, v)]).
Proof.
  split; [|split].
  - intros rest v. reflexivity.
  - intros k v H1 H2. unfold expand_entries. simpl.
    rewrite (remove_first_absent _ k H1), (remove_first_absent _ k H2). reflexivity.
  - intros a b v Ha Hinc. unfold expand_entries. simpl.
    rewrite (remove_first_absent _ _ Hinc).
    change "mgmt/tm/"%string with (String "m"%char "gmt/tm/").
    rewrite (remove_first_middle "m" "gmt/tm/" a b Ha). reflexivity.
Qed.

End ReduceExtras.

Lemma expand_entries_simplifies_keys_witness :
  Normalize.expand_entries (JObj [("sys/mgmt/tm/x", JNum 1)]) = [("sys/x", JNum 1)].
Proof.
  apply (proj2 (proj2 expand_entries_simplifies_keys) "sys/" "x" (JNum 1));
    reflexivity.
Defined.

Lemma reduceData_entries_discards_siblings_witness :
  Normalize.reduceData Util.convertArrayToMap 3
    (JObj [("kind", JStr "tm:sys:stats"); ("entries", JObj [("a", JNum 1)])]) None
  = Normalize.reduceData Util.convertArrayToMap 2
      (JObj (Normalize.expand_entries (JObj [("a", JNum 1)]))) None.
Proof.
  apply (reduceData_entries_discards_siblings Util.convertArrayToMap); reflexivity.
Defined.

Lemma reduceData_result_is_reduced_witness :
  Shapes.reduced (JObj [("sys/x/0.0/stats", JStr "5")]) = true.
Proof.
  apply (reduceData_result_is_reduced Util.convertArrayToMap util_convertArrayToMap_wf
           None 7 raw_stat_tree); reflexivity.
Defined.

Lemma reduceData_converts_every_array_witness :
  Shapes.array_free
    (JObj [("pool_a", JObj [("name", JStr "a"); ("port", JNum 80)]);
           ("pool_b", JObj [("name", JStr "b"); ("port", JNum 443)])]) = true.
Proof.
  apply (reduceData_converts_every_array Util.convertArrayToMap pools_by_name
           "name" (Some "pool_") 5 pools); reflexivity.
Defined.

Lemma reduceData_throws_only_on_null_witness :
  TypeError "Cannot read property 'nestedStats' of null"
  = TypeError "Cannot read property 'nestedStats' of null" ∧
  Shapes.null_free (JObj [("a", JObj [("value", JNull)])]) = false.
Proof.
  apply (reduceData_throws_only_on_null Util.convertArrayToMap None 4); reflexivity.
Defined.

Lemma reduceData_returns_without_null_witness :
  ∃ r, Normalize.reduceData Util.convertArrayToMap
         (ReduceReference.fuel_bound raw_stat_tree) raw_stat_tree None = Ret r.
Proof.
  apply (reduceData_returns_without_null Util.convertArrayToMap); reflexivity.
Defined.

(** ** System poller: what a change event leaves behind *)

Section PollerExtras.

Import Poller PollerShapes.

Lemma consistent_ext st st' :
  pollerIDs st' = pollerIDs st → live st' = live st → next_id st' = next_id st →
  consistent st → consistent st'.
Proof.
  unfold consistent. intros -> -> ->. auto.
Qed.

Lemma consistent_remove st k id :
  consistent st → pollerIDs st !! k = Some id →
  consistent (delete_pollerID k (util_stop id st)).
Proof.
  intros (Hlive & Hreg & Hinj & Hnext) Hk. repeat split; simpl.
  - intros k1 id1 H1. apply lookup_delete_Some in H1 as [Hne H1].
    apply elem_of_difference. split; [exact (Hlive k1 id1 H1)|].
    intros Heq. apply elem_of_singleton in Heq. subst id1.
    apply Hne. exact (Hinj k k1 id Hk H1).
  - intros id1 H1. apply elem_of_difference in H1 as [H1 Hne].
    destruct (Hreg id1 H1) as [k1 Hk1]. exists k1.
    apply lookup_delete_Some. split; [|exact Hk1].
    intros ->. rewrite Hk in Hk1. injection Hk1 as ->.
    apply Hne, elem_of_singleton. reflexivity.
  - intros k1 k2 id1 H1 H2.
    apply lookup_delete_Some in H1 as [_ H1]. apply lookup_delete_Some in H2 as [_ H2].
    exact (Hinj k1 k2 id1 H1 H2).
  - intros id1 H1. apply elem_of_difference in H1 as [H1 _]. exact (Hnext id1 H1).
Qed.

Lemma consistent_add st k :
  consistent st → pollerIDs st !! k = None →
  consistent (set_pollerID k (next_id st) (snd (util_start st))).
Proof.
  intros (Hlive & Hreg & Hinj & Hnext) Hk.
  assert (Hfresh : ∀ k1, pollerIDs st !! k1 ≠ Some (next_id st)).
  { intros k1 H1. apply Hlive, Hnext in H1. lia. }
  repeat split; simpl.
  - intros k1 id1 H1. apply lookup_insert_Some in H1 as [[_ <-]|[_ H1]].
    + apply elem_of_union_r, elem_of_singleton. reflexivity.
    + apply elem_of_union_l. exact (Hlive k1 id1 H1).
  - intros id1 H1. apply elem_of_union in H1 as [H1|H1].
    + destruct (Hreg id1 H1) as [k1 Hk1]. exists k1.
      apply lookup_insert_Some. right. split; [|exact Hk1].
      intros ->. rewrite Hk in Hk1. discriminate.
    + apply elem_of_singleton in H1. subst id1. exists k.
      apply lookup_insert_Some. left. auto.
  - intros k1 k2 id1 H1 H2.
    apply lookup_insert_Some in H1 as [[<- <-]|[Hne1 H1]];
      apply lookup_insert_Some in H2 as [[<- Heq]|[Hne2 H2]].
    + reflexivity.
    + exfalso. exact (Hfresh k2 H2).
    + subst id1. exfalso. exact (Hfresh k1 H1).
    + exact (Hinj k1 k2 id1 H1 H2).
  - intros id1 H1. apply elem_of_union in H1 as [H1|H1].
    + apply Hnext in H1. lia.
    + apply elem_of_singleton in H1. lia.
Qed.

Lemma each_poller_consistent st k cfg :
  consistent st → consistent (each_poller st k cfg).
Proof.
  intros Hst. unfold each_poller.
  destruct (pollerIDs st !! k) as [id|] eqn:Hk.
  - assert (Hrem := consistent_remove st k id Hst Hk).
    destruct (enable cfg) as [[|]|]; simpl.
    + assert (Hadd := consistent_add _ k Hrem (lookup_delete_eq _ _)).
      revert Hadd. apply consistent_ext; simpl; [|reflexivity..].
      rewrite insert_delete_eq. reflexivity.
    + revert Hrem. apply consistent_ext; reflexivity.
    + assert (Hadd := consistent_add _ k Hrem (lookup_delete_eq _ _)).
      revert Hadd. apply consistent_ext; simpl; [|reflexivity..].
      rewrite insert_delete_eq. reflexivity.
  - assert (Hadd := consistent_add st k Hst Hk).
    destruct (enable cfg) as [[|]|]; simpl.
    + revert Hadd. apply consistent_ext; reflexivity.
    + exact Hst.
    + revert Hadd. apply consistent_ext; reflexivity.
Qed.

Lemma stop_fold_live (st0 : state) (m : gmap string nat) (id : nat) :
  id ∈ live (map_fold (λ k id' st', delete_pollerID k (util_stop id' st')) st0 m) ↔
  id ∈ live st0 ∧ ∀ k, m !! k ≠ Some id.
Proof.
  induction m as [|i x m Hi Hfold IH] using map_first_key_ind.
  - rewrite map_fold_empty. split; [|tauto].
    intros H. split; [exact H|]. intros k. rewrite lookup_empty. discriminate.
  - rewrite map_fold_insert_first_key by assumption. simpl.
    rewrite elem_of_difference, IH, elem_of_singleton. split.
    + intros [[Hlive Hm] Hne]. split; [exact Hlive|].
      intros k Hk. apply lookup_insert_Some in Hk as [[_ <-]|[_ Hk]];
        [apply Hne; reflexivity | exact (Hm k Hk)].
    + intros [Hlive Hm]. repeat split; [exact Hlive | |].
      * intros k Hk. apply (Hm k). apply lookup_insert_Some. right.
        split; [|exact Hk]. intros <-. rewrite Hi in Hk. discriminate.
      * intros ->. apply (Hm i). apply lookup_insert_eq.
Qed.

Lemma stop_all_empties (st : state) :
  consistent st →
  pollerIDs (on_change None st) = ∅ ∧ live (on_change None st) = ∅.
Proof.
  intros (Hlive & Hreg & _ & _). split; [apply stop_all_registry|].
  apply elem_of_equiv_empty_L. intros id Hid. simpl in Hid. unfold stop_all in Hid.
  apply stop_fold_live in Hid as [Hid Hnone]. simpl in Hid.
  destruct (Hreg id Hid) as [k Hk]. exact (Hnone k Hk).
Qed.

(** Without any poller in the configuration nothing is left: the registry
    is empty and no timer is armed. *)
Theorem on_change_none_stops_everything (st : state) :
  consistent st →
  pollerIDs (on_change None st) = ∅ ∧ live (on_change None st) = ∅.
Proof. apply stop_all_empties. Qed.

Lemma on_change_some_consistent pollers : ∀ st,
  consistent st → consistent (on_change (Some pollers) st).
Proof.
  unfold on_change.
  induction pollers as [|[k cfg] pollers IH]; intros st Hst; simpl; [exact Hst|].
  apply IH, each_poller_consistent, Hst.
Qed.

(** A change event keeps the timers in step with the registry: afterwards,
    as before, the armed timers are exactly the handles of the registered
    pollers, one each.  No timer is leaked and none is armed twice. *)
Theorem on_change_keeps_timers_in_step snapshot (st : state) :
  consistent st → consistent (on_change snapshot st).
Proof.
  intros Hst. destruct snapshot as [pollers|].
  - apply on_change_some_consistent, Hst.
  - destruct (stop_all_empties st Hst) as [Hreg Hlive].
    unfold consistent. rewrite Hreg, Hlive. repeat split.
    + intros k id H. rewrite lookup_empty in H. discriminate.
    + intros id H. apply not_elem_of_empty in H. contradiction.
    + intros k k' id H. rewrite lookup_empty in H. discriminate.
    + intros id H. apply not_elem_of_empty in H. contradiction.
Qed.

Lemma each_poller_own_registered st k cfg :
  is_Some (pollerIDs (each_poller st k cfg) !! k) ↔ enabled cfg = true.
Proof.
  unfold each_poller, enabled.
  destruct (pollerIDs st !! k) as [id|] eqn:Hk;
    destruct (enable cfg) as [[|]|]; simpl;
    rewrite ?lookup_insert_eq, ?lookup_delete_eq, ?Hk;
    split; intros H; try reflexivity; try eauto;
    try discriminate; destruct H; discriminate.
Qed.

Lemma on_change_registered pollers : ∀ (st : state) (k : string),
  NoDup (map fst pollers) →
  is_Some (pollerIDs (on_change (Some pollers) st) !! k) ↔
  match obj_get pollers k with
  | Some cfg => enabled cfg = true
  | None => is_Some (pollerIDs st !! k)
  end.
Proof.
  induction pollers as [|[k0 cfg0] pollers IH]; intros st k Hnd; [reflexivity|].
  apply NoDup_cons in Hnd as [Hk0 Hnd].
  change (on_change (Some ((k0, cfg0) :: pollers)) st)
    with (on_change (Some pollers) (each_poller st k0 cfg0)).
  simpl obj_get. destruct (String.eqb_spec k0 k) as [->|Hne].
  - rewrite on_change_other by (intros H; apply Hk0, list_elem_of_In, H).
    apply each_poller_own_registered.
  - rewrite (IH _ k Hnd).
    destruct (obj_get pollers k); [reflexivity|].
    rewrite each_poller_other by exact Hne. reflexivity.
Qed.

(** After a change event with pollers in the configuration, the registry
    holds the pollers that the configuration enables, and the pollers it
    held before that the configuration does not name; a poller the
    configuration disables is not in it. *)
Theorem on_change_registry pollers (st : state) (k : string) :
  NoDup (map fst pollers) →
  is_Some (pollerIDs (on_change (Some pollers) st) !! k) ↔
  match obj_get pollers k with
  | Some cfg => enabled cfg = true
  | None => is_Some (pollerIDs st !! k)
  end.
Proof. apply on_change_registered. Qed.

Lemma obj_get_NoDup {A} (o : list (string * A)) k v :
  NoDup (map fst o) → In (k, v) o → obj_get o k = Some v.
Proof.
  induction o as [|[k0 v0] o IH]; simpl; intros Hnd Hin; [contradiction|].
  apply NoDup_cons in Hnd as [Hk0 Hnd].
  destruct Hin as [[= -> ->]|Hin].
  - rewrite String.eqb_refl. reflexivity.
  - destruct (String.eqb_spec k0 k) as [->|_]; [|exact (IH Hnd Hin)].
    exfalso. apply Hk0, list_elem_of_In, in_map_iff. exists (k, v). auto.
Qed.

(** Every poller that the configuration enables is running after the
    change event: registered, with its timer armed. *)
Theorem on_change_runs_enabled pollers (st : state) k cfg :
  consistent st →
  NoDup (map fst pollers) →
  In (k, cfg) pollers → enabled cfg = true →
  active k (on_change (Some pollers) st).
Proof.
  intros Hst Hnd Hin Hon.
  assert (Hreg : is_Some (pollerIDs (on_change (Some pollers) st) !! k)).
  { apply on_change_registered; [exact Hnd|].
    rewrite (obj_get_NoDup pollers k cfg Hnd Hin). exact Hon. }
  destruct Hreg as [id Hid]. exists id. split; [exact Hid|].
  destruct (on_change_some_consistent pollers st Hst) as (Hlive & _).
  exact (Hlive k id Hid).
Qed.

(** The same configuration a second time changes nothing in who is
    registered. *)
Theorem on_change_twice_same_pollers pollers (st : state) k :
  NoDup (map fst pollers) →
  is_Some (pollerIDs (on_change (Some pollers) (on_change (Some pollers) st)) !! k) ↔
  is_Some (pollerIDs (on_change (Some pollers) st) !! k).
Proof.
  intros Hnd.
  pose proof (on_change_registered pollers (on_change (Some pollers) st) k Hnd) as H2.
  pose proof (on_change_registered pollers st k Hnd) as H1.
  destruct (obj_get pollers k); tauto.
Qed.

End PollerExtras.

Lemma registry_with_A_consistent : PollerShapes.consistent registry_with_A.
Proof.
  unfold PollerShapes.consistent. simpl. repeat split.
  - intros k id H. apply lookup_singleton_Some in H as [_ <-].
    apply elem_of_singleton. reflexivity.
  - intros id H. apply elem_of_singleton in H. subst id. exists "A".
    apply lookup_singleton_eq.
  - intros k k' id H H'. apply lookup_singleton_Some in H as [<- _].
    apply lookup_singleton_Some in H' as [<- _]. reflexivity.
  - intros id H. apply elem_of_singleton in H. lia.
Qed.

Lemma on_change_keeps_timers_in_step_witness :
  PollerShapes.consistent (Poller.on_change snapshot_with_B registry_with_A).
Proof. apply on_change_keeps_timers_in_step, registry_with_A_consistent. Defined.

Lemma on_change_none_stops_everything_witness :
  Poller.pollerIDs (Poller.on_change None registry_with_A) = ∅ ∧
  Poller.live (Poller.on_change None registry_with_A) = ∅.
Proof. apply on_change_none_stops_everything, registry_with_A_consistent. Defined.

Lemma on_change_registry_witness :
  is_Some (Poller.pollerIDs (Poller.on_change snapshot_with_B registry_with_A) !! "A") ↔
  is_Some (Poller.pollerIDs registry_with_A !! "A").
Proof.
  apply (on_change_registry
           [("B", {| Poller.interval := 60; Poller.enable := None |})]
           registry_with_A "A").
  apply NoDup_singleton.
Defined.

Lemma on_change_runs_enabled_witness :
  Poller.active "B" (Poller.on_change snapshot_with_B registry_with_A).
Proof.
  apply (on_change_runs_enabled
           [("B", {| Poller.interval := 60; Poller.enable := None |})]
           registry_with_A "B" {| Poller.interval := 60; Poller.enable := None |}).
  - apply registry_with_A_consistent.
  - apply NoDup_singleton.
  - left. reflexivity.
  - reflexivity.
Defined.

Lemma on_change_twice_same_pollers_witness :
  is_Some (Poller.pollerIDs
             (Poller.on_change snapshot_with_B
                (Poller.on_change snapshot_with_B registry_with_A)) !! "B") ↔
  is_Some (Poller.pollerIDs (Poller.on_change snapshot_with_B registry_with_A) !! "B").
Proof.
  apply (on_change_twice_same_pollers
           [("B", {| Poller.interval := 60; Poller.enable := None |})]
           registry_with_A "B").
  apply NoDup_singleton.
Defined.

(** ** Event listener: the configuration-change handler *)

Section ListenerHandlerExtras.

Import Listener ListenerHandler.

Lemma on_change_with_server rt P st :
  listener st ≠ None →
  listener (on_change rt P st) = listener st ∧
  starts (on_change rt P st) = starts st ∧
  last (log (on_change rt P st)) = Some ("Already listening on port " +:+ port_text P).
Proof.
  intros Hsome. unfold on_change.
  destruct (listener st) as [srv|]; [|contradiction]. simpl.
  repeat split. apply last_snoc.
Qed.

Lemma on_changes_with_server rts P : ∀ st,
  listener st ≠ None →
  listener (on_changes rts P st) = listener st ∧
  starts (on_changes rts P st) = starts st.
Proof.
  unfold on_changes.
  induction rts as [|rt rts IH]; intros st Hsome; simpl; [auto|].
  destruct (on_change_with_server rt P st Hsome) as (Hl & Hs & _).
  destruct (IH (on_change rt P st)) as [Hl' Hs']; [rewrite Hl; exact Hsome|].
  rewrite Hl', Hs', Hl, Hs. auto.
Qed.

(** Once the handler holds a server object, no change event replaces it or
    calls [start] again, whatever the runtime would do with a new server. *)
Theorem on_change_never_restarts rts P st :
  listener st ≠ None →
  listener (on_changes rts P st) = listener st ∧
  starts (on_changes rts P st) = starts st.
Proof. apply on_changes_with_server. Qed.

(** When [listen] throws at once, [start] logs the failure and still returns
    the server object it has created.  The handler keeps it: every later
    change event reports that the listener is already listening, and [start]
    is never tried again. *)
Theorem on_change_keeps_unbound_server rt e P st :
  listener st = None →
  createServer_error rt = None →
  listen_result rt = ThrowsSync e →
  let st1 := on_change rt P st in
  last (log st1) = Some ("Unable to start event listener: " +:+ exn_message e) ∧
  ∀ rts rt',
    starts (on_changes (rts ++ [rt']) P st1) = S (starts st) ∧
    last (log (on_changes (rts ++ [rt']) P st1)) =
      Some ("Already listening on port " +:+ port_text P).
Proof.
  intros Hnone Hcreate Hlisten. cbv zeta.
  assert (Hst1 : listener (on_change rt P st) ≠ None ∧
                 starts (on_change rt P st) = S (starts st) ∧
                 last (log (on_change rt P st)) =
                   Some ("Unable to start event listener: " +:+ exn_message e)).
  { unfold on_change, start, try_block. rewrite Hnone, Hcreate, Hlisten. simpl.
    repeat split; [discriminate | apply last_snoc]. }
  destruct Hst1 as (Hsome & Hstarts & Hlog). split; [exact Hlog|].
  intros rts rt'. unfold on_changes. rewrite fold_left_app. simpl.
  fold (on_changes rts P (on_change rt P st)).
  destruct (on_changes_with_server rts P _ Hsome) as [Hl Hs].
  assert (Hsome' : listener (on_changes rts P (on_change rt P st)) ≠ None)
    by (rewrite Hl; exact Hsome).
  destruct (on_change_with_server rt' P _ Hsome') as (_ & Hs' & Hlast).
  rewrite Hs', Hs, Hstarts. split; [reflexivity | exact Hlast].
Qed.

(** When [net.createServer] itself throws there is no server object:
    [listener] stays empty, and every change event tries [start] again for
    as long as that lasts. *)
Theorem on_change_retries_without_server rts P : ∀ st,
  listener st = None →
  Forall (λ rt, createServer_error rt ≠ None) rts →
  listener (on_changes rts P st) = None ∧
  starts (on_changes rts P st) = (starts st + List.length rts)%nat.
Proof.
  unfold on_changes.
  induction rts as [|rt rts IH]; intros st Hnone Hall; simpl.
  - split; [exact Hnone | lia].
  - apply Forall_cons in Hall as [Hrt Hall].
    assert (Hstep : listener (on_change rt P st) = None ∧
                    starts (on_change rt P st) = S (starts st)).
    { unfold on_change, start, try_block. rewrite Hnone.
      destruct (createServer_error rt) as [e|]; [|contradiction]. simpl. auto. }
    destruct Hstep as [Hl Hs].
    destruct (IH (on_change rt P st) Hl Hall) as [Hl' Hs'].
    rewrite Hl', Hs', Hs. split; [reflexivity | lia].
Qed.

End ListenerHandlerExtras.

Lemma on_change_never_restarts_witness :
  ListenerHandler.listener
    (ListenerHandler.on_changes [port_in_use; port_in_use] 6514
       {| ListenerHandler.listener :=
            Some {| Listener.on_error := []; Listener.pending_error := None |};
          ListenerHandler.log := []; ListenerHandler.starts := 1 |})
  = Some {| Listener.on_error := []; Listener.pending_error := None |} ∧
  ListenerHandler.starts
    (ListenerHandler.on_changes [port_in_use; port_in_use] 6514
       {| ListenerHandler.listener :=
            Some {| Listener.on_error := []; Listener.pending_error := None |};
          ListenerHandler.log := []; ListenerHandler.starts := 1 |})
  = 1%nat.
Proof.
  apply (on_change_never_restarts [port_in_use; port_in_use] 6514
           {| ListenerHandler.listener :=
                Some {| Listener.on_error := []; Listener.pending_error := None |};
              ListenerHandler.log := []; ListenerHandler.starts := 1 |}).
  discriminate.
Defined.

Lemma on_change_keeps_unbound_server_witness :
  let st1 :=
    ListenerHandler.on_change
      {| Listener.createServer_error := None;
         Listener.listen_result := Listener.ThrowsSync (Error "port out of range") |}
      70000
      {| ListenerHandler.listener := None; ListenerHandler.log := [];
         ListenerHandler.starts := 0 |} in
  last (ListenerHandler.log st1) =
    Some ("Unable to start event listener: " +:+
          exn_message (Error "port out of range")) ∧
  ∀ rts rt',
    ListenerHandler.starts (ListenerHandler.on_changes (rts ++ [rt']) 70000 st1) = 1%nat ∧
    last (ListenerHandler.log (ListenerHandler.on_changes (rts ++ [rt']) 70000 st1)) =
      Some ("Already listening on port " +:+ ListenerHandler.port_text 70000).
Proof.
  apply (on_change_keeps_unbound_server
           {| Listener.createServer_error := None;
              Listener.listen_result := Listener.ThrowsSync (Error "port out of range") |}
           (Error "port out of range") 70000
           {| ListenerHandler.listener := None; ListenerHandler.log := [];
              ListenerHandler.starts := 0 |});
    reflexivity.
Defined.

Lemma on_change_retries_without_server_witness :
  ListenerHandler.listener
    (ListenerHandler.on_changes
       [{| Listener.createServer_error := Some (Error "EMFILE");
           Listener.listen_result := Listener.Bound |};
        {| Listener.createServer_error := Some (Error "EMFILE");
           Listener.listen_result := Listener.Bound |}]
       6514
       {| ListenerHandler.listener := None; ListenerHandler.log := [];
          ListenerHandler.starts := 0 |})
  = None ∧
  ListenerHandler.starts
    (ListenerHandler.on_changes
       [{| Listener.createServer_error := Some (Error "EMFILE");
           Listener.listen_result := Listener.Bound |};
        {| Listener.createServer_error := Some (Error "EMFILE");
           Listener.listen_result := Listener.Bound |}]
       6514
       {| ListenerHandler.listener := None; ListenerHandler.log := [];
          ListenerHandler.starts := 0 |})
  = 2%nat.
Proof.
  apply (on_change_retries_without_server
           [{| Listener.createServer_error := Some (Error "EMFILE");
               Listener.listen_result := Listener.Bound |};
            {| Listener.createServer_error := Some (Error "EMFILE");
               Listener.listen_result := Listener.Bound |}]
           6514
           {| ListenerHandler.listener := None; ListenerHandler.log := [];
              ListenerHandler.starts := 0 |}).
  - reflexivity.
  - repeat constructor; discriminate.
Defined.

(** ** System poller: one collection cycle *)

Section CycleExtras.

Import Poller PollerCycle.

Variable collect : poller_config -> collect_outcome.
Variable dataPipeline_process : value -> string -> option exn.
Variable SYSTEM_POLLER : string.
Variable cycleStart cycleEnd : string.

Local Abbreviation inject := (PollerCycle.inject SYSTEM_POLLER cycleStart cycleEnd).
Local Abbreviation process :=
  (PollerCycle.process collect dataPipeline_process SYSTEM_POLLER cycleStart cycleEnd).
Local Abbreviation safeProcess :=
  (PollerCycle.safeProcess collect dataPipeline_process SYSTEM_POLLER cycleStart cycleEnd).
Local Abbreviation processClientRequest :=
  (PollerCycle.processClientRequest collect dataPipeline_process SYSTEM_POLLER
                                    cycleStart cycleEnd).

Ltac cycle_cases a :=
  unfold PollerCycle.safeProcess, PollerCycle.process, PollerCycle.on_collected;
  destruct (collect (config a)) as [e|e|data];
  [ | | destruct (process_flag a) as [[|]|];
        destruct (tracer a);
        try destruct (dataPipeline_process _ SYSTEM_POLLER) as [e|] ].

(** A scheduled cycle hands the pipeline one payload, the collected object
    with the service data, when the collection succeeds and the caller has
    not set [process] to [false]; in every other case it hands it nothing. *)
Theorem safeProcess_dispatches_once (a : args) :
  List.filter is_dispatch (safeProcess a) =
  match collect (config a), process_flag a with
  | CollectResolves data, Some false => []
  | CollectResolves data, _ =>
      [PipelineProcess (JObj (inject (config a) data)) SYSTEM_POLLER]
  | _, _ => []
  end.
Proof. cycle_cases a; reflexivity. Qed.

(** A scheduled cycle ends in one of two ways: with the line that it has
    finished and nothing logged as an exception, or with exactly one logged
    exception and no such line.  Nothing that goes wrong in it goes
    unreported, and nothing escapes. *)
Theorem safeProcess_finishes_or_logs (a : args) :
  let fx := safeProcess a in
  (last fx = Some (Debug "System poller cycle finished") ∧
   List.filter is_logged fx = []) ∨
  (∃ msg e,
     last fx = Some (LogException msg e) ∧
     List.filter is_logged fx = [LogException msg e] ∧
     ¬ In (Debug "System poller cycle finished") fx).
Proof.
  cbv zeta. cycle_cases a; simpl;
    first [ left; split; reflexivity
          | right; eexists _, _; repeat split; try reflexivity;
            simpl; intuition discriminate ].
Qed.

(** What the pipeline receives is the collected object with two fields set:
    the event category, and the service data with the polling interval of
    the poller's configuration and the two time stamps.  Every other field
    is as collected. *)
Theorem safeProcess_payload (a : args) (p : value) (c : string) :
  In (PipelineProcess p c) (safeProcess a) →
  ∃ data fields,
    collect (config a) = CollectResolves data ∧
    p = JObj fields ∧ c = SYSTEM_POLLER ∧
    obj_get fields "telemetryEventCategory" = Some (JStr SYSTEM_POLLER) ∧
    obj_get fields "telemetryServiceInfo" =
      Some (JObj [("pollingInterval", JNum (Z.of_nat (interval (config a))));
                  ("cycleStart", JStr cycleStart);
                  ("cycleEnd", JStr cycleEnd)]) ∧
    ∀ k, k ≠ "telemetryServiceInfo" → k ≠ "telemetryEventCategory" →
         obj_get fields k = obj_get data k.
Proof.
  intros Hin.
  assert (H : ∃ data, collect (config a) = CollectResolves data ∧
                      p = JObj (inject (config a) data) ∧ c = SYSTEM_POLLER).
  { revert Hin. cycle_cases a; simpl; intros Hin;
      repeat (destruct Hin as [Hin|Hin]; try discriminate Hin);
      try contradiction; injection Hin as <- <-; eauto. }
  destruct H as (data & Hcollect & -> & ->).
  exists data, (inject (config a) data).
  repeat split; try assumption; unfold PollerCycle.inject.
  - rewrite obj_get_set, String.eqb_refl. reflexivity.
  - rewrite !obj_get_set. reflexivity.
  - intros k Hk1 Hk2. rewrite !obj_get_set.
    destruct (String.eqb_spec "telemetryEventCategory" k) as [<-|_]; [contradiction|].
    destruct (String.eqb_spec "telemetryServiceInfo" k) as [<-|_]; [contradiction|].
    reflexivity.
Qed.

Ltac request_cases pathname systemPollers :=
  unfold PollerCycle.processClientRequest, PollerCycle.process, PollerCycle.on_collected;
  destruct (nth_error (js_split pathname "/") 4) as [[|c0 name]|];
  [ | destruct (obj_get systemPollers (String c0 name)) as [cfg|];
      [ simpl; destruct (collect cfg) as [e|e|data] | ] | ].

(** A request for a poller's data never reaches the pipeline and never
    writes a trace. *)
Theorem processClientRequest_stays_local pathname systemPollers :
  List.filter (λ fx, is_dispatch fx || is_trace fx)
              (snd (processClientRequest pathname systemPollers)) = [].
Proof. request_cases pathname systemPollers; reflexivity. Qed.

(** A request is answered exactly once, with 200, 400, 404 or 500, and the
    answer is the last thing that happens; the one exception is a collector
    that throws at once: the exception leaves [processClientRequest] and the
    request gets no answer. *)
Theorem processClientRequest_answers_once pathname systemPollers :
  let '(r, fx) := processClientRequest pathname systemPollers in
  match r with
  | Ret _ =>
      ∃ code body,
        List.filter is_response fx = [Respond code body] ∧
        last fx = Some (Respond code body) ∧
        In code [200; 400; 404; 500]%Z
  | Throw e =>
      List.filter is_response fx = [] ∧
      ∃ cfg, In cfg (map snd systemPollers) ∧ collect cfg = CollectThrows e
  | OutOfFuel => False
  end.
Proof.
  unfold PollerCycle.processClientRequest, PollerCycle.process, PollerCycle.on_collected.
  destruct (nth_error (js_split pathname "/") 4) as [[|c0 name]|].
  - eexists _, _. repeat split; simpl; auto.
  - destruct (obj_get systemPollers (String c0 name)) as [cfg|] eqn:Hcfg.
    + simpl. destruct (collect cfg) as [e|e|data] eqn:Hcollect.
      * split; [reflexivity|]. exists cfg. split; [|exact Hcollect].
        apply in_map_iff. exists (String c0 name, cfg).
        split; [reflexivity | apply obj_get_in, Hcfg].
      * eexists _, _. repeat split; simpl; auto.
      * eexists _, _. repeat split; simpl; auto.
    + eexists _, _. repeat split; simpl; auto.
  - eexists _, _. repeat split; simpl; auto.
Qed.

End CycleExtras.

Lemma safeProcess_payload_witness :
  ∃ data fields,
    PollerCycle.CollectResolves [("hostname", JStr "bigip1")] = PollerCycle.CollectResolves data ∧
    JObj (PollerCycle.inject "systemInfo" "t0" "t1"
            {| Poller.interval := 60; Poller.enable := None |}
            [("hostname", JStr "bigip1")]) = JObj fields ∧
    "systemInfo" = "systemInfo" ∧
    obj_get fields "telemetryEventCategory" = Some (JStr "systemInfo") ∧
    obj_get fields "telemetryServiceInfo" =
      Some (JObj [("pollingInterval", JNum 60);
                  ("cycleStart", JStr "t0");
                  ("cycleEnd", JStr "t1")]) ∧
    ∀ k, k ≠ "telemetryServiceInfo" → k ≠ "telemetryEventCategory" →
         obj_get fields k = obj_get data k.
Proof.
  apply (safeProcess_payload
           (λ _, PollerCycle.CollectResolves [("hostname", JStr "bigip1")])
           (λ _ _, None) "systemInfo" "t0" "t1"
           {| PollerCycle.config := {| Poller.interval := 60; Poller.enable := None |};
              PollerCycle.process_flag := None;
              PollerCycle.tracer := false |}
           (JObj (PollerCycle.inject "systemInfo" "t0" "t1"
                    {| Poller.interval := 60; Poller.enable := None |}
                    [("hostname", JStr "bigip1")]))
           "systemInfo").
  right. left. reflexivity.
Defined.
